(** * slopjail: a shallow embedding of the sandbox protocol

  The development follows the source units of the repository:

  - [Utils]  : [escapeHtml] of src/utils.ts;
  - [Js]     : the fragment of JavaScript values the host and the worker
               exchange (typeof, Object.entries, property assignment);
  - [Host]   : [extractMethods], [onMethod], the policy string, [dispose]
               and [run] of createSandbox (src/worker.ts, lines 131-327);
  - [Worker] : the start-up scrub loop, [injectMethods], [setGlobals] and
               the guest's [run] (src/worker.ts, lines 53-130);
  - [Relay]  : the script inside the iframe that creates the worker and
               forwards messages (src/unnamed/part_000).

  Line numbers are those of the files under src/.  Definitions come
  first, the theorems about them afterwards. *)

From stdpp Require Import gmap strings list.
From Stdlib Require Import ZArith Lia Ascii DecimalString DecimalNat.



(* ===================================================================== *)
(** ** src/utils.ts                                                       *)
(* ===================================================================== *)

Module Utils.

(** Strings are sequences of code units; the code below inspects only the
    five ASCII characters it replaces.

    [String.prototype.replaceAll] with a string pattern: the subject is
    scanned left to right, every match of [pat] is replaced by [rep] and
    the scan resumes after the match ([skip] counts the characters of the
    current match still to be dropped).  With the empty pattern the
    replacement is inserted between all characters and at both ends.  The
    replacement is taken literally: none of the replacements in the source
    contains a dollar sign. *)
Fixpoint replaceAll_from (pat rep : string) (skip : nat) (s : string) : string :=
  match s with
  | EmptyString =>
      match pat with EmptyString => rep | _ => EmptyString end
  | String c s' =>
      match skip with
      | S k => replaceAll_from pat rep k s'
      | O =>
          if String.prefix pat s
          then match pat with
               | EmptyString => rep +:+ String c (replaceAll_from pat rep 0 s')
               | String _ p' => rep +:+ replaceAll_from pat rep (String.length p') s'
               end
          else String c (replaceAll_from pat rep 0 s')
      end
  end.

Definition replaceAll (pat rep s : string) : string :=
  replaceAll_from pat rep 0 s.

(** The five characters the escaper looks for. *)
Definition amp : ascii := "&"%char.
Definition dquote : ascii := "034"%char.
Definition squote : ascii := "'"%char.
Definition lt : ascii := "<"%char.
Definition gt : ascii := ">"%char.

Definition chr (c : ascii) : string := String c EmptyString.

(** src/utils.ts, lines 1-8: five successive [replaceAll] calls. *)
Definition escapeHtml (str : string) : string :=
  replaceAll (chr gt) "&gt;"
    (replaceAll (chr lt) "&lt;"
      (replaceAll (chr squote) "&#39;"
        (replaceAll (chr dquote) "&quot;"
          (replaceAll (chr amp) "&amp;" str)))).

(** The escaper as section 4.4 of the specification words it: one pass
    from left to right in which every character is either replaced by its
    entity or copied. *)
Definition entityOf (c : ascii) : string :=
  if Ascii.eqb c amp then "&amp;"
  else if Ascii.eqb c dquote then "&quot;"
  else if Ascii.eqb c squote then "&#39;"
  else if Ascii.eqb c lt then "&lt;"
  else if Ascii.eqb c gt then "&gt;"
  else chr c.

Fixpoint escapeForAttribute (s : string) : string :=
  match s with
  | EmptyString => EmptyString
  | String c s' => entityOf c +:+ escapeForAttribute s'
  end.

(** The characters that must not be left raw in an attribute. *)
Definition raw : list ascii := [dquote; squote; lt; gt].

(** [c] occurs in [s]. *)
Definition occurs (c : ascii) (s : string) : Prop :=
  In c (String.list_ascii_of_string s).

End Utils.


(* ===================================================================== *)
(** ** The JavaScript values that cross the boundary                      *)
(* ===================================================================== *)

Module Js.

(** Values of the globals graph and of the two trees built from it.
    Numbers are the integral ones (capability tokens are array lengths).
    A host function is known by its identity [f]; [VProxy methodId] is the
    closure [(...params) => hostClient.call('onMethod', {methodId, params})]
    that the worker builds.  An object is its list of own enumerable
    string-keyed properties in [Object.entries] order: property names are
    pairwise distinct in a well-formed object, and the graph is a finite
    tree (no cycles, no shared sub-objects). *)
#[local] Unset Elimination Schemes.
Inductive value : Type :=
| VUndef
| VNull
| VBool (b : bool)
| VNum (n : Z)
| VStr (s : string)
| VFun (f : nat)
| VProxy (methodId : Z)
| VObj (props : list (string * value))
| VArr (elems : list value).
#[local] Set Elimination Schemes.

Abbreviation obj := (list (string * value)).

(** The [typeof] operator. *)
Definition typeof (v : value) : string :=
  match v with
  | VUndef => "undefined"
  | VNull => "object"
  | VBool _ => "boolean"
  | VNum _ => "number"
  | VStr _ => "string"
  | VFun _ | VProxy _ => "function"
  | VObj _ | VArr _ => "object"
  end.

(** Truthiness, as used by [if (value)]. *)
Definition truthy (v : value) : bool :=
  match v with
  | VUndef | VNull => false
  | VBool b => b
  | VNum n => negb (n =? 0)%Z
  | VStr s => negb (String.eqb s "")
  | _ => true
  end.

(** [v == null]. *)
Definition nullish (v : value) : bool :=
  match v with VUndef | VNull => true | _ => false end.

(** The name of an array index: its decimal numeral. *)
Definition indexKey (i : nat) : string :=
  NilEmpty.string_of_uint (Nat.to_uint i).

Fixpoint indexed (i : nat) (elems : list value) : obj :=
  match elems with
  | [] => []
  | v :: rest => (indexKey i, v) :: indexed (S i) rest
  end.

(** [Object.entries]: own enumerable string-keyed properties; for an
    array, its elements under their indices. *)
Definition entries (v : value) : obj :=
  match v with
  | VObj props => props
  | VArr elems => indexed 0 elems
  | _ => []
  end.

(** [Object.keys(o).length > 0]. *)
Definition hasKeys (o : obj) : bool :=
  match o with [] => false | _ :: _ => true end.

(** An own data property is created or updated: an existing property
    keeps its place and takes the new value, a new one is added last (for
    names that are not array indices, insertion order is the order of
    [Object.entries]; the splitter inserts the names of its source in the
    source's own order). *)
Fixpoint setOwn (o : obj) (key : string) (v : value) : obj :=
  match o with
  | [] => [(key, v)]
  | (k, w) :: rest =>
      if String.eqb k key then (k, v) :: rest
      else (k, w) :: setOwn rest key v
  end.

(** [o[key] = v] on an object made by [{}] and filled by assignments, as
    the trees of the splitter and of the merge are.  Such an object has no
    own property [__proto__], so that key reaches the setter inherited
    from [Object.prototype]: no own property is created (the setter
    changes the prototype when [v] is an object or [null], and neither
    [Object.entries], [Object.keys] nor the structured clone look at the
    prototype).  Every other key creates or updates an own property. *)
Definition setProp (o : obj) (key : string) (v : value) : obj :=
  if String.eqb key "__proto__" then o else setOwn o key v.

Fixpoint lookupProp (o : obj) (key : string) : option value :=
  match o with
  | [] => None
  | (k, w) :: rest => if String.eqb k key then Some w else lookupProp rest key
  end.

(** [v[key]] for an own property of an object or array; a missing
    property reads as [undefined]. *)
Definition getProp (v : value) (key : string) : value :=
  default VUndef (lookupProp (entries v) key).

Inductive error : Type :=
| TypeError
| ReferenceError
| DataCloneError.

(** How the evaluation of a call or of a handler ends: with a value, with
    an exception, by running the host (or native) function [f] on [args]
    and completing as it does, or by sending the request
    [onMethod {methodId, params}] to the host and completing as the reply
    does. *)
Inductive completion : Type :=
| Normal (v : value)
| Throw (e : error)
| Invoke (f : nat) (args : list value)
| Request (methodId : Z) (params : list value).

(** [callee(...args)]. *)
Definition call (callee : value) (args : list value) : completion :=
  match callee with
  | VFun f => Invoke f args
  | VProxy methodId => Request methodId args
  | _ => Throw TypeError
  end.

(** [arr[i]] where [typeof i] is 'number': the element when [i] is an
    index of the array, [undefined] otherwise. *)
Definition index (arr : list value) (i : value) : value :=
  match i with
  | VNum n =>
      if ((0 <=? n) && (n <? Z.of_nat (length arr)))%Z
      then nth (Z.to_nat n) arr VUndef
      else VUndef
  | _ => VUndef
  end.

(** [typeof v === 'function']. *)
Definition isFunction (v : value) : bool :=
  match v with VFun _ | VProxy _ => true | _ => false end.

(** [typeof v === 'object' && v != null]. *)
Definition isObject (v : value) : bool :=
  match v with VObj _ | VArr _ => true | _ => false end.

(** The leaves of a graph, in traversal order (depth first, properties in
    [Object.entries] order), each contributing [leaf]. *)
Fixpoint flatten {A : Type} (leaf : value -> list A) (v : value) : list A :=
  match v with
  | VObj props =>
      (fix go (ps : obj) : list A :=
         match ps with
         | [] => []
         | (_, w) :: rest => flatten leaf w ++ go rest
         end) props
  | VArr elems =>
      (fix go (vs : list value) : list A :=
         match vs with
         | [] => []
         | w :: rest => flatten leaf w ++ go rest
         end) elems
  | _ => leaf v
  end.

(** The callables of a graph in traversal order. *)
Definition callables : value -> list value :=
  flatten (fun v => if isFunction v then [v] else []).

(** The numbers of a tree in traversal order: in a methods tree, its
    capability tokens. *)
Definition tokens : value -> list Z :=
  flatten (fun v => match v with VNum n => [n] | _ => [] end).

(** The method ids of the proxies of a tree. *)
Definition proxies : value -> list Z :=
  flatten (fun v => match v with VProxy methodId => [methodId] | _ => [] end).

(** The host functions of a graph. *)
Definition hostFunctions : value -> list nat :=
  flatten (fun v => match v with VFun f => [f] | _ => [] end).

(** The structured-clone algorithm accepts a value iff no function occurs
    in it (a function raises DataCloneError). *)
Definition cloneable (v : value) : bool :=
  match callables v with [] => true | _ :: _ => false end.

(** The property names of every object of the graph are pairwise
    distinct. *)
Fixpoint wellFormed (v : value) : bool :=
  match v with
  | VObj props =>
      bool_decide (NoDup (map fst props))
      && (fix all (ps : obj) : bool :=
            match ps with
            | [] => true
            | (_, w) :: rest => wellFormed w && all rest
            end) props
  | VArr elems =>
      (fix all (vs : list value) : bool :=
         match vs with
         | [] => true
         | w :: rest => wellFormed w && all rest
         end) elems
  | _ => true
  end.

(** [v.k1. ... .kn] over own properties. *)
Definition getPath (v : value) (path : list string) : value :=
  foldl getProp v path.

End Js.

(* ===================================================================== *)
(** ** createSandbox: the host side                                       *)
(* ===================================================================== *)

Module Host.
Import Js.

(** The result of [extractMethods] together with the table it grew:
    [methodsById] is a variable of the enclosing [createSandbox] that the
    function pushes to, here threaded through. *)
Record extracted : Type := Extracted {
  constants : obj;
  methods : obj;
  methodsById : list value
}.

(** The body of the [for] loop of [extractMethods] for one entry
    [(key, value)], a [switch] on [typeof value]; [recur] is
    [extractMethods] itself. *)
Definition visit (recur : value -> list value -> extracted)
    (key : string) (v : value) (acc : extracted) : extracted :=
  if String.eqb (typeof v) "function" then
    Extracted (constants acc)
      (setProp (methods acc) key (VNum (Z.of_nat (length (methodsById acc)))))
      (methodsById acc ++ [v])
  else if String.eqb (typeof v) "object" then
    if negb (nullish v) then
      let child := recur v (methodsById acc) in
      Extracted (setProp (constants acc) key (VObj (constants child)))
        (if hasKeys (methods child)
         then setProp (methods acc) key (VObj (methods child))
         else methods acc)
        (methodsById child)
    else
      Extracted (setProp (constants acc) key v) (methods acc) (methodsById acc)
  else
    Extracted (setProp (constants acc) key v) (methods acc) (methodsById acc).

(** src/worker.ts, lines 240-270.  The loop runs over
    [Object.entries(source)]; for an array these are its elements under
    their indices. *)
Fixpoint extractMethods (source : value) (tbl : list value) : extracted :=
  match source with
  | VObj props =>
      (fix loop (ps : obj) (acc : extracted) : extracted :=
         match ps with
         | [] => acc
         | (key, v) :: rest => loop rest (visit extractMethods key v acc)
         end) props (Extracted [] [] tbl)
  | VArr elems =>
      (fix loop (i : nat) (vs : list value) (acc : extracted) : extracted :=
         match vs with
         | [] => acc
         | v :: rest => loop (S i) rest (visit extractMethods (indexKey i) v acc)
         end) 0 elems (Extracted [] [] tbl)
  | _ => Extracted [] [] tbl
  end.

(** src/worker.ts, lines 304-310: the handler of the host service. *)
Definition onMethod (tbl : list value) (methodId : value)
    (params : list value) : completion :=
  if String.eqb (typeof methodId) "number"
  then call (index tbl methodId) params
  else Normal VUndef.

(** [token] is an index of the capability table. *)
Definition validIndex (tbl : list value) (token : value) : bool :=
  match token with
  | VNum n => ((0 <=? n) && (n <? Z.of_nat (length tbl)))%Z
  | _ => false
  end.

(** The options of [createSandbox]; an absent field is [None]. *)
Record CreateSandboxOptions : Type := {
  globals : option obj;
  contentSecurityPolicy : option string;
  name : option string
}.

(** [opts?.field ?? fallback]. *)
Definition optional {A} (opts : option CreateSandboxOptions)
    (field : CreateSandboxOptions -> option A) (fallback : A) : A :=
  default fallback (opts ≫= field).

(** src/worker.ts, line 282. *)
Definition fullContentSecurityPolicy (opts : option CreateSandboxOptions) : string :=
  "default-src 'none'; script-src 'unsafe-inline' 'unsafe-eval'; worker-src data:; "
  +:+ optional opts contentSecurityPolicy "".

(** src/worker.ts, lines 283-284: the document of the iframe.
    [iframeSource] is the bundled relay script. *)
Definition srcdoc (iframeSource : string) (opts : option CreateSandboxOptions) : string :=
  let q := Utils.chr Utils.dquote in
  let safeIframeSource := Utils.replaceAll "</script" "<\/script" iframeSource in
  "<head><meta http-equiv=" +:+ q +:+ "Content-Security-Policy" +:+ q
  +:+ " content=" +:+ q +:+ Utils.escapeHtml (fullContentSecurityPolicy opts) +:+ q
  +:+ "></head><body><script>" +:+ safeIframeSource +:+ "</script></body>".

(** src/worker.ts, line 272. *)
Definition split (opts : option CreateSandboxOptions) : extracted :=
  extractMethods (VObj (optional opts globals [])) [].

(** A message port is entangled with its peer until it is closed. *)
Inductive portState : Type := Entangled | Closed.

(** What [dispose] and [run] act on: the host end of the channel, the
    iframe element and the children of [document.body]. *)
Record session : Type := Session {
  port : portState;
  iframe : nat;
  body : list nat;
  table : list value
}.

(** [port.close()]: disentangles the port; on a closed port it does
    nothing. *)
Definition close (p : portState) : portState := Closed.

(** [element.remove()]: takes the element out of its parent's children;
    with no parent it does nothing. *)
Definition remove (element : nat) (children : list nat) : list nat :=
  filter (fun child => child ≠ element) children.

(** src/worker.ts, lines 315-318.  Neither call has an exceptional
    path. *)
Definition dispose (s : session) : session :=
  Session (close (port s)) (iframe s) (remove (iframe s) (body s)) (table s).

Inductive request : Type :=
| RunRequest (code : string).

(** The promise a client call returns. *)
Inductive promise : Type :=
| Awaiting (r : request)
| Unanswered (r : request)
| Rejected (reason : string).

(** Modelled from the spec: the client end of the RPC channel (the package
    shrimp-rpc, an external collaborator), [call(method, params)] posts
    the request on the port and returns the promise of its reply.  A
    message posted on a closed port is dropped by the platform, so no
    reply ever settles the promise. *)
Definition clientCall (p : portState) (r : request) : promise :=
  match p with
  | Entangled => Awaiting r
  | Closed => Unanswered r
  end.

(** src/worker.ts, lines 321-323. *)
Definition run (s : session) (code : string) : promise :=
  clientCall (port s) (RunRequest code).

End Host.

(* ===================================================================== *)
(** ** The worker: the guest side                                         *)
(* ===================================================================== *)

Module Worker.
Import Js.

(** An own property of an object of the global scope: a data property or
    an accessor (native getter and setter, known by identity), with its
    attributes. *)
Inductive property : Type :=
| Data (v : value) (writable enumerable configurable : bool)
| Accessor (get set : option nat) (enumerable configurable : bool).

Abbreviation object := (gmap string property).

(** The prototype chain of the global scope, [globalThis] first: the
    chain of an ordinary object is finite and ends in [null], the empty
    list.  The global object's own property [globalThis] holds the global
    object itself; values of the model are trees, so a chain that stands
    for a global scope does not list that property. *)
Abbreviation chain := (list object).

Definition isConfigurable (p : property) : bool :=
  match p with
  | Data _ _ _ c => c
  | Accessor _ _ _ c => c
  end.

(** src/worker.ts, lines 76-86. *)
Definition blocked : list string :=
  ["name"; "navigator"; "location"; "requestAnimationFrame";
   "Worker"; "SharedWorker"].

(** [Object.hasOwn(o, prop)]. *)
Definition hasOwn (o : object) (prop : string) : bool :=
  match o !! prop with Some _ => true | None => false end.

(** What [{value: undefined}] makes of an existing property, [None] when
    the redefinition is refused (TypeError): a configurable accessor
    becomes a read-only data property, a configurable or writable data
    property takes the value, and a frozen one is accepted only if it
    already holds [undefined]. *)
Definition redefine (current : property) : option property :=
  match current with
  | Accessor _ _ e c => if c then Some (Data VUndef false e c) else None
  | Data v w e c =>
      if c || w then Some (Data VUndef w e c)
      else match v with VUndef => Some current | _ => None end
  end.

(** [Object.defineProperty(o, prop, {value: undefined})]. *)
Definition defineProperty (o : object) (prop : string) : option object :=
  match o !! prop with
  | None => Some (<[prop := Data VUndef false false false]> o)
  | Some current => p ← redefine current; Some (<[prop := p]> o)
  end.

(** src/worker.ts, lines 88-96: the [while (proto)] loop for one name. *)
Fixpoint scrubProp (prop : string) (protos : chain) : option chain :=
  match protos with
  | [] => Some []
  | proto :: rest =>
      proto' ← (if hasOwn proto prop then defineProperty proto prop
                else Some proto);
      rest' ← scrubProp prop rest;
      Some (proto' :: rest')
  end.

(** src/worker.ts, lines 87-97: the [for (const prop of blocked)] loop. *)
Fixpoint scrubAll (props : list string) (globalThis : chain) : option chain :=
  match props with
  | [] => Some globalThis
  | prop :: rest => scrubbed ← scrubProp prop globalThis; scrubAll rest scrubbed
  end.

Definition scrub (globalThis : chain) : option chain :=
  scrubAll blocked globalThis.

(** A property after a successful [{value: undefined}]: a data property
    holding [undefined]; enumerability and configurability stay, and so
    does the writability of a data property. *)
Definition inertOf (p : property) : property :=
  match p with
  | Accessor _ _ e c => Data VUndef false e c
  | Data _ w e c => Data VUndef w e c
  end.


(** What a successful pass of the loops does to one object of the chain
    for one name. *)
Definition scrubObject (prop : string) (o : object) : object :=
  match o !! prop with
  | Some p => <[prop := inertOf p]> o
  | None => o
  end.

(** Every own property of [o] with a blocked name is configurable, as the
    attributes and interface objects of a worker's global scope are. *)
Definition blockedConfigurable (o : object) : bool :=
  forallb (fun prop => match o !! prop with
                       | Some p => isConfigurable p
                       | None => true
                       end) blocked.

(** The body of the loop of [injectMethods] for one entry; [recur] is
    [injectMethods] itself.  The child is a fresh object, stored at
    [dest[key]] and then filled; the proxy keeps the number it was built
    for. *)
Definition inject (recur : value -> obj -> obj)
    (key : string) (v : value) (dest : obj) : obj :=
  if String.eqb (typeof v) "object" then
    if truthy v then setProp dest key (VObj (recur v [])) else dest
  else if String.eqb (typeof v) "number" then
    match v with
    | VNum methodId => setProp dest key (VProxy methodId)
    | _ => dest
    end
  else dest.

(** src/worker.ts, lines 101-118. *)
Fixpoint injectMethods (methods : value) (dest : obj) : obj :=
  match methods with
  | VObj props =>
      (fix loop (ps : obj) (dest : obj) : obj :=
         match ps with
         | [] => dest
         | (key, v) :: rest => loop rest (inject injectMethods key v dest)
         end) props dest
  | VArr elems =>
      (fix loop (i : nat) (vs : list value) (dest : obj) : obj :=
         match vs with
         | [] => dest
         | v :: rest => loop (S i) rest (inject injectMethods (indexKey i) v dest)
         end) 0 elems dest
  | _ => dest
  end.

(** The first property named [key] on the chain. *)
Fixpoint findProperty (protos : chain) (key : string) : option property :=
  match protos with
  | [] => None
  | o :: rest =>
      match o !! key with
      | Some p => Some p
      | None => findProperty rest key
      end
  end.

(** [globalThis[key] = v] in strict code, [None] for the TypeError of a
    refused assignment.  What a native setter does is outside the model:
    the chain is left as it is, and no other name is touched. *)
Definition assign (globalThis : chain) (key : string) (v : value) : option chain :=
  match globalThis with
  | [] => None
  | self :: protos =>
      match findProperty globalThis key with
      | None => Some (<[key := Data v true true true]> self :: protos)
      | Some (Data _ true _ _) =>
          match self !! key with
          | None => Some (<[key := Data v true true true]> self :: protos)
          | Some (Data _ _ e c) => Some (<[key := Data v true e c]> self :: protos)
          | Some (Accessor _ _ _ _) => None
          end
      | Some (Data _ false _ _) => None
      | Some (Accessor _ (Some _) _ _) => Some globalThis
      | Some (Accessor _ None _ _) => None
      end
  end.

(** src/worker.ts, lines 120-122: the loop over [Object.entries(constants)].
    The source names the target [globalThis] anew in every turn; that name
    is the global object for as long as no turn has assigned to the key
    [globalThis] itself, and the loop is modelled for such [props]: every
    assignment goes to the head of the chain. *)
Fixpoint assignAll (globalThis : chain) (props : obj) : option chain :=
  match props with
  | [] => Some globalThis
  | (key, v) :: rest => g ← assign globalThis key v; assignAll g rest
  end.

(** src/worker.ts, lines 100-124. *)
Definition setGlobals (constants methods : obj) (globalThis : chain) : option chain :=
  assignAll globalThis (injectMethods (VObj methods) constants).

(** The identifier [id] in guest code, for an [id] that the body of the
    compiled function reads as a reference to a global: an identifier
    that is neither a reserved word or literal nor [arguments].  The
    function has no parameters and the worker script declares nothing at
    the top level of the global scope, so such a name is looked up on the
    global object and its prototypes.  The value a native getter returns
    is outside the model: the completion says which getter runs. *)
Definition resolve (globalThis : chain) (id : string) : completion :=
  match findProperty globalThis id with
  | None => Throw ReferenceError
  | Some (Data v _ _ _) => Normal v
  | Some (Accessor (Some g) _ _ _) => Invoke g []
  | Some (Accessor None _ _ _) => Normal VUndef
  end.

(** [e.key] after [e] completed as [c], for an identifier name [key]:
    reading a property of [undefined] or [null] throws, an abrupt
    completion stays as it is, and so does the call of a native getter,
    whose result the model does not have.  Of a value the own properties
    are read; what a value inherits (the methods of [Object.prototype],
    the [length] of a string) is not modelled, so a read that finds no own
    property is [undefined] here. *)
Definition member (c : completion) (key : string) : completion :=
  match c with
  | Normal VUndef | Normal VNull => Throw TypeError
  | Normal v => Normal (getProp v key)
  | _ => c
  end.

(** src/worker.ts, lines 126-129, for the code text
    [return id.k1. ... .kn], where [id] is a reference to a global and the
    [ki] are identifier names; the value returned is sent back to the host
    as a structured clone. *)
Definition run (globalThis : chain) (id : string) (path : list string) : completion :=
  match foldl member (resolve globalThis id) path with
  | Normal v => if cloneable v then Normal v else Throw DataCloneError
  | c => c
  end.

End Worker.

(* ===================================================================== *)
(** ** Sample inputs                                                      *)
(* ===================================================================== *)

Module Samples.
Import Js Worker.

(** The globals of the README's nested example, with a logger. *)
Definition nestedGlobals : obj :=
  [("math", VObj [("add", VFun 10); ("multiply", VFun 11)]);
   ("version", VStr "1.0.0");
   ("log", VFun 12)].

(** A constant next to a callable in a nested object. *)
Definition mathGlobals : obj :=
  [("math", VObj [("pi", VNum 3); ("add", VFun 0)])].

(** Arrays among the globals, as in the README's [fruit] example. *)
Definition arrayGlobals : obj :=
  [("fruit", VArr [VStr "apple"; VStr "banana"]);
   ("handlers", VArr [VFun 7])].

(** A worker's global scope in miniature: the global object with the
    interface objects, then the prototypes with the accessors. *)
Definition workerScope : chain :=
  [ {[ "Worker" := Data (VFun 1) true false true ]};
    {[ "name" := Accessor (Some 2) (Some 3) true true;
       "postMessage" := Data (VFun 4) true true true ]};
    {[ "navigator" := Accessor (Some 5) None true true;
       "location" := Accessor (Some 6) None true true ]};
    ∅ ].

End Samples.

(* ===================================================================== *)
(** ** The relay inside the iframe                                        *)
(* ===================================================================== *)

Module Relay.
Import Js.

(** src/worker.ts, line 275: [opts?.name ?? 'slopjail']. *)
Definition sandboxName (opts : option Host.CreateSandboxOptions) : string :=
  Host.optional opts Host.name "slopjail".

(** src/worker.ts, lines 288-292: the message the host posts to the
    iframe once it has loaded, together with one port of the channel. *)
Definition initMessage (opts : option Host.CreateSandboxOptions)
    (workerSource : string) : value :=
  VObj [("type", VStr "slopjail:init");
        ("name", VStr (sandboxName opts));
        ("workerSource", VStr workerSource)].

(** What reaches the relay: a message event on the iframe's window with
    the ports transferred along, a message delivered on the port the relay
    holds, a message from the worker it created. *)
Inductive event : Type :=
| WindowMessage (data : value) (ports : list nat)
| PortMessage (data : value)
| WorkerMessage (data : value).

(** What the relay does: [new Worker(`data:,${encodeURIComponent(source)}`,
    { name })], [worker.postMessage(data)] and [port.postMessage(data)]. *)
Inductive effect : Type :=
| NewWorker (source name : value)
| WorkerPost (data : value)
| PortPost (data : value).

(** The handlers in place: [onMessage] on the window, [port.onmessage] and
    [worker.onmessage]. *)
Record state : Type := State {
  listening : bool;
  portHandler : bool;
  workerHandler : bool
}.

(** After [self.addEventListener('message', onMessage)]. *)
Definition initial : state := State true false false.

(** [data?.type]. *)
Definition typeOf (data : value) : value :=
  if nullish data then VUndef else getProp data "type".

(** [x === 'slopjail:init']. *)
Definition isInit (x : value) : bool :=
  match x with
  | VStr s => String.eqb s "slopjail:init"
  | _ => false
  end.

(** src/unnamed/part_000, lines 4-18: one event.  [onMessage] removes
    itself, creates the worker, and installs the two forwarding handlers on
    [event.ports[0]] and on the worker; without a port the assignment to
    [port.onmessage] throws and neither handler is installed.  A handler
    that is not installed handles nothing. *)
Definition step (st : state) (e : event) : state * list effect :=
  match e with
  | WindowMessage data ports =>
      if listening st && isInit (typeOf data) then
        let spawn := NewWorker (getProp data "workerSource") (getProp data "name") in
        match ports with
        | [] => (State false (portHandler st) (workerHandler st), [spawn])
        | _ :: _ => (State false true true, [spawn])
        end
      else (st, [])
  | PortMessage data =>
      if portHandler st then (st, [WorkerPost data]) else (st, [])
  | WorkerMessage data =>
      if workerHandler st then (st, [PortPost data]) else (st, [])
  end.

(** A sequence of events, with everything the relay did in order. *)
Fixpoint steps (st : state) (es : list event) : state * list effect :=
  match es with
  | [] => (st, [])
  | e :: rest =>
      let (st1, out1) := step st e in
      let (st2, out2) := steps st1 rest in
      (st2, out1 ++ out2)
  end.

(** What a relay whose handlers are installed makes of an event. *)
Definition forwarded (e : event) : list effect :=
  match e with
  | WindowMessage _ _ => []
  | PortMessage data => [WorkerPost data]
  | WorkerMessage data => [PortPost data]
  end.

Definition isSpawn (x : effect) : bool :=
  match x with NewWorker _ _ => true | _ => false end.

(** How many workers were created. *)
Definition spawns (out : list effect) : nat :=
  length (List.filter isSpawn out).

(** [e] is a window message that [onMessage] takes for the init message. *)
Definition isInitEvent (e : event) : bool :=
  match e with
  | WindowMessage data _ => isInit (typeOf data)
  | _ => false
  end.

End Relay.

(* ===================================================================== *)
(** ** Notions used to state further properties                           *)
(* ===================================================================== *)

Module Props.
Import Js Worker.

(** [pat] occurs in [s] as a substring. *)
Fixpoint contains (pat s : string) : bool :=
  String.prefix pat s
  || match s with
     | EmptyString => false
     | String _ s' => contains pat s'
     end.

(** No property of the graph, at any depth, is named [__proto__]. *)
Fixpoint protoFree (v : value) : bool :=
  match v with
  | VObj props =>
      (fix all (ps : obj) : bool :=
         match ps with
         | [] => true
         | (k, w) :: rest =>
             negb (String.eqb k "__proto__") && protoFree w && all rest
         end) props
  | VArr elems =>
      (fix all (vs : list value) : bool :=
         match vs with
         | [] => true
         | w :: rest => protoFree w && all rest
         end) elems
  | _ => true
  end.

(** An identifier name written in ASCII: a letter, [_] or [$], followed
    by letters, digits, [_] and [$]. *)
Definition isIdStart (c : ascii) : bool :=
  let n := nat_of_ascii c in
  (Nat.leb 65 n && Nat.leb n 90) || (Nat.leb 97 n && Nat.leb n 122)
  || Nat.eqb n 95 || Nat.eqb n 36.

Definition isIdPart (c : ascii) : bool :=
  let n := nat_of_ascii c in
  isIdStart c || (Nat.leb 48 n && Nat.leb n 57).

Definition isIdentifierName (s : string) : bool :=
  match s with
  | EmptyString => false
  | String c rest => isIdStart c && forallb isIdPart (String.list_ascii_of_string rest)
  end.

(** Names that, written in the body of the function that [run] compiles,
    are not a reference to a global: the reserved words and literals,
    the words reserved in strict code, and the function's own
    [arguments]. *)
Definition notGlobalReferences : list string :=
  ["await"; "break"; "case"; "catch"; "class"; "const"; "continue";
   "debugger"; "default"; "delete"; "do"; "else"; "enum"; "export";
   "extends"; "false"; "finally"; "for"; "function"; "if"; "import"; "in";
   "instanceof"; "new"; "null"; "return"; "super"; "switch"; "this";
   "throw"; "true"; "try"; "typeof"; "var"; "void"; "while"; "with";
   "yield"; "let"; "static"; "implements"; "interface"; "package";
   "private"; "protected"; "public"; "async"; "arguments"].

(** [id], written in the body that [run] compiles, names a property of
    the global scope. *)
Definition isReference (id : string) : bool :=
  isIdentifierName id && negb (existsb (String.eqb id) notGlobalReferences).


(** A primitive or [null]: neither a function nor an object. *)
Definition isPlain (v : value) : bool :=
  negb (isFunction v) && negb (isObject v).

(** An assignment to [globalThis[key]] is accepted: the name is not on
    the chain, or the property found first is a writable data property. *)
Definition assignable (globalThis : chain) (key : string) : bool :=
  match findProperty globalThis key with
  | None => true
  | Some (Data _ w _ _) => w
  | Some (Accessor _ _ _ _) => false
  end.

End Props.

Module MoreSamples.
Import Js Worker.

(** Globals with a subtree of pure data next to one with a function, as in
    the tests for nested objects. *)
Definition configGlobals : obj :=
  [("config", VObj [("version", VNum 1); ("name", VStr "test")]);
   ("math", VObj [("add", VFun 0)])].

(** A global scope on which [location] cannot be redefined. *)
Definition frozenScope : chain :=
  [ ∅; {[ "location" := Accessor (Some 6) None true false ]} ].

End MoreSamples.

(* ===================================================================== *)
(** * Theorems                                                            *)
(* ===================================================================== *)

(** ** escapeHtml *)

Section EscapeHtml.
Import Utils.

Lemma append_cons (x : ascii) (a b : string) :
  String x a +:+ b = String x (a +:+ b).
Proof. reflexivity. Qed.

Lemma append_assoc (a b c : string) : (a +:+ b) +:+ c = a +:+ (b +:+ c).
Proof.
  induction a as [|x a IH]; [reflexivity|].
  rewrite !append_cons, IH. reflexivity.
Qed.

Lemma prefix_empty (s : string) : String.prefix "" s = true.
Proof. destruct s; reflexivity. Qed.

(** With a one-character pattern every step of the scan decides one
    character. *)
Lemma replaceAll_char_cons (c x : ascii) (rep s : string) :
  replaceAll (chr c) rep (String x s)
  = (if Ascii.eqb c x then rep else chr x) +:+ replaceAll (chr c) rep s.
Proof.
  unfold replaceAll, chr. cbn [replaceAll_from String.prefix].
  destruct (ascii_dec c x) as [->|Hne].
  - rewrite prefix_empty, Ascii.eqb_refl. reflexivity.
  - apply Ascii.eqb_neq in Hne. rewrite Hne. reflexivity.
Qed.

Lemma replaceAll_char_app (c : ascii) (rep a b : string) :
  replaceAll (chr c) rep (a +:+ b)
  = replaceAll (chr c) rep a +:+ replaceAll (chr c) rep b.
Proof.
  induction a as [|x a IH].
  - reflexivity.
  - rewrite append_cons, !replaceAll_char_cons, IH, append_assoc. reflexivity.
Qed.

Lemma escapeHtml_app (a b : string) :
  escapeHtml (a +:+ b) = escapeHtml a +:+ escapeHtml b.
Proof. unfold escapeHtml. now rewrite !replaceAll_char_app. Qed.

(** The five passes on a single character: its entity, or itself. *)
Lemma escapeHtml_chr (c : ascii) : escapeHtml (chr c) = entityOf c.
Proof. destruct c as [[] [] [] [] [] [] [] []]; reflexivity. Qed.

Lemma escapeHtml_cons (c : ascii) (s : string) :
  escapeHtml (String c s) = entityOf c +:+ escapeHtml s.
Proof.
  change (String c s) with (chr c +:+ s).
  now rewrite escapeHtml_app, escapeHtml_chr.
Qed.

Lemma occurs_app (c : ascii) (a b : string) :
  occurs c (a +:+ b) <-> occurs c a \/ occurs c b.
Proof.
  unfold occurs. induction a as [|x a IH].
  - change ("" +:+ b) with b. simpl. tauto.
  - rewrite append_cons. simpl. rewrite IH. tauto.
Qed.

Lemma entityOf_no_raw (x c : ascii) : occurs c (entityOf x) -> ~ In c raw.
Proof.
  unfold entityOf.
  destruct (Ascii.eqb x amp) eqn:Ea;
    [|destruct (Ascii.eqb x dquote) eqn:Ed;
      [|destruct (Ascii.eqb x squote) eqn:Es;
        [|destruct (Ascii.eqb x lt) eqn:El;
          [|destruct (Ascii.eqb x gt) eqn:Eg]]]];
    unfold occurs, raw; simpl; intros Hin Hraw.
  1-5: repeat (destruct Hin as [<-|Hin]; [repeat (destruct Hraw as [Hraw|Hraw]; try discriminate Hraw)|]);
       try contradiction.
  destruct Hin as [<-|[]].
  apply Ascii.eqb_neq in Ed, Es, El, Eg.
  repeat (destruct Hraw as [Hraw|Hraw]; [congruence|]). contradiction.
Qed.

Lemma escapeForAttribute_no_raw (s : string) (c : ascii) :
  occurs c (escapeForAttribute s) -> ~ In c raw.
Proof.
  induction s as [|x s IH]; simpl.
  - intros [].
  - rewrite occurs_app. intros [H|H]; [now apply entityOf_no_raw in H | auto].
Qed.

Lemma escapeHtml_refines (s : string) : escapeHtml s = escapeForAttribute s.
Proof.
  induction s as [|x s IH]; [reflexivity|].
  rewrite escapeHtml_cons, IH. reflexivity.
Qed.

(** C8. [escapeHtml] is total and its five successive replacements come
    to one pass from left to right in which [&], the double quote, the
    single quote, [<] and [>] become their entities, nothing already
    written is scanned again and every other character is copied; hence
    no raw double quote, single quote, [<] or [>] is left in the
    result. *)
Theorem escapeHtml_single_pass (s : string) :
  escapeHtml s = escapeForAttribute s
  /\ (forall c, occurs c (escapeHtml s) -> ~ In c raw)
  /\ (forall c a b, ~ In c (amp :: raw) ->
        escapeHtml (a +:+ String c b) = escapeHtml a +:+ String c (escapeHtml b)).
Proof.
  split; [apply escapeHtml_refines|split].
  - intros c. rewrite escapeHtml_refines. apply escapeForAttribute_no_raw.
  - intros c a b Hc. rewrite escapeHtml_app, escapeHtml_cons.
    replace (entityOf c) with (chr c); [reflexivity|].
    unfold entityOf, raw in *. simpl in Hc.
    repeat match goal with
           | |- context [Ascii.eqb c ?x] =>
               destruct (Ascii.eqb_spec c x) as [->|_]; [exfalso; apply Hc; auto 10|]
           end.
    reflexivity.
Qed.

End EscapeHtml.

(** ** The policy string *)

Section Policy.
Import Host.

(** C9. Whatever extra directives the caller supplies, the policy string
    is the fixed baseline followed by them, character for character; with
    no extra directives it is the baseline alone. *)
Theorem fullContentSecurityPolicy_baseline_extra
    (extra : string) (g : option Js.obj) (n : option string) :
  fullContentSecurityPolicy
    (Some {| globals := g; contentSecurityPolicy := Some extra; name := n |})
  = "default-src 'none'; script-src 'unsafe-inline' 'unsafe-eval'; worker-src data:; "
    +:+ extra
  /\ fullContentSecurityPolicy
       (Some {| globals := g; contentSecurityPolicy := None; name := n |})
     = "default-src 'none'; script-src 'unsafe-inline' 'unsafe-eval'; worker-src data:; "
  /\ fullContentSecurityPolicy None
     = "default-src 'none'; script-src 'unsafe-inline' 'unsafe-eval'; worker-src data:; ".
Proof. repeat split. Qed.

End Policy.

(** ** Dispatch *)

Section Dispatch.
Import Js Host.

Lemma typeof_number (v : value) :
  typeof v = "number" <-> exists n, v = VNum n.
Proof.
  split; [|intros [n ->]; reflexivity].
  destruct v; try discriminate; eauto.
Qed.

(** C10. A method id that is not a number reaches no function of the
    table: the handler returns [undefined]. *)
Theorem onMethod_not_a_number
    (tbl : list value) (methodId : value) (params : list value) :
  typeof methodId <> "number" ->
  onMethod tbl methodId params = Normal VUndef.
Proof.
  intros Hty. unfold onMethod.
  destruct (String.eqb_spec (typeof methodId) "number"); [contradiction|reflexivity].
Qed.

Lemma index_invalid (tbl : list value) (token : value) :
  validIndex tbl token = false -> index tbl token = VUndef.
Proof.
  destruct token; try reflexivity. simpl. now intros ->.
Qed.

(** C3, as the specification has it, fails: a number beyond the table is
    not a valid index, and the handler throws instead of returning
    [undefined]. *)
Lemma onMethod_out_of_range_throws :
  validIndex [VFun 0] (VNum 5) = false
  /\ onMethod [VFun 0] (VNum 5) [] = Throw TypeError
  /\ onMethod [VFun 0] (VNum 5) [] <> Normal VUndef.
Proof. repeat split. discriminate. Qed.

(** C3, amended. For a token that is not a valid index of the table no
    function of the table runs; the handler returns [undefined] when the
    token is not a number, and throws a TypeError (calling [undefined])
    when it is a number outside the table. *)
Theorem onMethod_invalid_token
    (tbl : list value) (token : value) (params : list value) :
  validIndex tbl token = false ->
  onMethod tbl token params
  = if String.eqb (typeof token) "number" then Throw TypeError else Normal VUndef.
Proof.
  intros Hinv. unfold onMethod.
  destruct (String.eqb (typeof token) "number"); [|reflexivity].
  now rewrite (index_invalid _ _ Hinv).
Qed.

End Dispatch.

(** ** Disposal *)

Section Disposal.
Import Host.

Lemma remove_idempotent (e : nat) (children : list nat) :
  remove e (remove e children) = remove e children.
Proof.
  unfold remove. induction children as [|c cs IH]; [reflexivity|].
  rewrite filter_cons. destruct (decide (c ≠ e)) as [Hne|Heq].
  - rewrite filter_cons. destruct (decide (c ≠ e)); [|contradiction].
    now rewrite IH.
  - exact IH.
Qed.

Lemma remove_not_in (e : nat) (children : list nat) :
  ~ In e (remove e children).
Proof.
  unfold remove. intros Hin. apply list_elem_of_In, list_elem_of_filter in Hin.
  destruct Hin as [Hne _]. now apply Hne.
Qed.

(** C7. [dispose] closes the port and takes the iframe out of the
    document; doing it again changes nothing, and the function is total
    (no call in it can throw). *)
Theorem dispose_idempotent (s : session) :
  dispose (dispose s) = dispose s
  /\ port (dispose s) = Closed
  /\ ~ In (iframe s) (body (dispose s)).
Proof.
  unfold dispose; simpl. split; [|split].
  - now rewrite remove_idempotent.
  - reflexivity.
  - apply remove_not_in.
Qed.

(** C4 does not hold of this [run]: it has no disposal check.  After
    [dispose] it still hands the request to the channel client, and the
    promise it returns is never rejected: on the closed port the request
    is dropped and the promise stays pending. *)
Theorem run_after_dispose_not_rejected (s : session) (code : string) :
  run (dispose s) code = Unanswered (RunRequest code)
  /\ (forall reason, run (dispose s) code <> Rejected reason).
Proof. split; [reflexivity | discriminate]. Qed.

End Disposal.

(** ** The start-up scrub *)

Section Scrub.
Import Js Worker Props.

Lemma redefine_configurable (p : property) :
  isConfigurable p = true -> redefine p = Some (inertOf p).
Proof. destruct p as [v w e c|g st e c]; simpl; intros ->; reflexivity. Qed.

Lemma inertOf_idempotent (p : property) : inertOf (inertOf p) = inertOf p.
Proof. now destruct p. Qed.


Lemma isConfigurable_inertOf (p : property) :
  isConfigurable (inertOf p) = isConfigurable p.
Proof. now destruct p. Qed.

Lemma scrubObject_lookup (prop key : string) (o : object) :
  scrubObject prop o !! key
  = if decide (key = prop) then inertOf <$> o !! key else o !! key.
Proof.
  unfold scrubObject. destruct (decide (key = prop)) as [->|Hne].
  - destruct (o !! prop) as [p|] eqn:Hp.
    + now rewrite lookup_insert_eq.
    + now rewrite Hp.
  - destruct (o !! prop); [now rewrite lookup_insert_ne|reflexivity].
Qed.

Lemma scrubProp_map (prop : string) (protos : chain) :
  (forall o p, o ∈ protos -> o !! prop = Some p -> isConfigurable p = true) ->
  scrubProp prop protos = Some (map (scrubObject prop) protos).
Proof.
  induction protos as [|o rest IH]; intros Hc; [reflexivity|].
  simpl. rewrite IH by (intros; eapply Hc; [right|]; eauto).
  unfold hasOwn, defineProperty, scrubObject.
  destruct (o !! prop) as [p|] eqn:Hp; [|reflexivity].
  rewrite (redefine_configurable p) by (eapply Hc; [left|]; eauto).
  reflexivity.
Qed.

Lemma scrubAll_map (props : list string) (protos : chain) :
  (forall o prop p, o ∈ protos -> prop ∈ props ->
     o !! prop = Some p -> isConfigurable p = true) ->
  scrubAll props protos
  = Some (map (fun o => foldl (fun o prop => scrubObject prop o) o props) protos).
Proof.
  revert protos. induction props as [|prop rest IH]; intros protos Hc.
  - simpl. now rewrite map_id.
  - simpl. rewrite scrubProp_map by (intros; eapply Hc; [|left|]; eauto).
    simpl. rewrite IH.
    + now rewrite map_map.
    + intros o' prop' p' Ho' Hprop' Hp'.
      apply list_elem_of_fmap in Ho' as [o [-> Ho]].
      rewrite scrubObject_lookup in Hp'.
      destruct (decide (prop' = prop)) as [->|Hne].
      * destruct (o !! prop) as [p|] eqn:Hp; [|discriminate].
        injection Hp' as <-. rewrite isConfigurable_inertOf.
        eapply Hc; [exact Ho|left|exact Hp].
      * eapply Hc; [exact Ho|right; exact Hprop'|exact Hp'].
Qed.

Lemma scrubObjects_lookup (props : list string) (key : string) (o : object) :
  foldl (fun o prop => scrubObject prop o) o props !! key
  = if bool_decide (key ∈ props) then inertOf <$> o !! key else o !! key.
Proof.
  revert o. induction props as [|prop rest IH]; intros o; [reflexivity|].
  simpl. rewrite IH, scrubObject_lookup.
  destruct (decide (key = prop)) as [->|Hne].
  - rewrite (bool_decide_eq_true_2 (prop ∈ prop :: rest)) by left.
    destruct (bool_decide (prop ∈ rest)); [|reflexivity].
    destruct (o !! prop); simpl; [now rewrite inertOf_idempotent|reflexivity].
  - destruct (bool_decide (key ∈ rest)) eqn:Hin.
    + apply bool_decide_eq_true_1 in Hin.
      now rewrite (bool_decide_eq_true_2 (key ∈ prop :: rest)) by (now right).
    + apply bool_decide_eq_false_1 in Hin.
      rewrite (bool_decide_eq_false_2 (key ∈ prop :: rest)); [reflexivity|].
      intros [?|?]%elem_of_cons; contradiction.
Qed.







End Scrub.

(** ** Graphs of values *)

Section Graphs.
Import Js.

(** Induction on a graph through its entries. *)
Lemma value_entries_ind (P : value -> Prop) :
  (forall v, (forall k w, In (k, w) (entries v) -> P w) -> P v) ->
  forall v, P v.
Proof.
  intros step. fix IH 1. intros v. apply step.
  destruct v as [| | | | | | |props|elems]; simpl; try (intros k w []).
  - induction props as [|[k0 w0] rest IHrest]; simpl; intros k w H.
    + destruct H.
    + destruct H as [H|H].
      * injection H as _ <-. apply IH.
      * exact (IHrest k w H).
  - generalize 0. induction elems as [|w0 rest IHrest]; simpl; intros i k w H.
    + destruct H.
    + destruct H as [H|H].
      * injection H as _ <-. apply IH.
      * exact (IHrest (S i) k w H).
Qed.

Lemma flatten_entries {A : Type} (leaf : value -> list A) (v : value) :
  flatten leaf v
  = if isObject v
    then flat_map (fun kv => flatten leaf (snd kv)) (entries v)
    else leaf v.
Proof.
  destruct v as [| | | | | | |props|elems]; try reflexivity; simpl.
  - induction props as [|[k w] rest IH]; simpl; [reflexivity|now rewrite IH].
  - generalize 0. induction elems as [|w rest IH]; intros i; simpl;
      [reflexivity|now rewrite (IH (S i))].
Qed.

Lemma indexKey_inj (i j : nat) : indexKey i = indexKey j -> i = j.
Proof.
  unfold indexKey. intros H.
  apply (f_equal NilEmpty.uint_of_string) in H.
  rewrite !NilEmpty.usu in H. injection H as H.
  apply (f_equal Nat.of_uint) in H.
  now rewrite !Unsigned.of_to in H.
Qed.

Lemma indexed_keys (i : nat) (elems : list value) :
  map fst (indexed i elems) = map indexKey (seq i (length elems)).
Proof.
  revert i. induction elems as [|w rest IH]; intros i; simpl;
    [reflexivity|now rewrite IH].
Qed.

Lemma wellFormed_entries (v : value) :
  wellFormed v = true ->
  NoDup (map fst (entries v))
  /\ (forall k w, In (k, w) (entries v) -> wellFormed w = true).
Proof.
  destruct v as [| | | | | | |props|elems]; simpl;
    try (intros _; split; [constructor|intros k w []]).
  - intros [Hnd Hall]%andb_prop. split; [now apply bool_decide_eq_true_1 in Hnd|].
    clear Hnd. induction props as [|[k0 w0] rest IH]; simpl; intros k w H.
    + destruct H.
    + apply andb_prop in Hall as [Hw Hall]. destruct H as [H|H].
      * now injection H as _ <-.
      * exact (IH Hall k w H).
  - intros Hall. split.
    + rewrite indexed_keys. apply NoDup_fmap_2; [|apply NoDup_seq].
      intros i j. apply indexKey_inj.
    + revert Hall. generalize 0.
      induction elems as [|w0 rest IH]; simpl; intros i Hall k w H.
      * destruct H.
      * apply andb_prop in Hall as [Hw Hall]. destruct H as [H|H].
        -- now injection H as _ <-.
        -- exact (IH (S i) Hall k w H).
Qed.

Lemma setProp_proto (o : obj) (v : value) : setProp o "__proto__" v = o.
Proof. reflexivity. Qed.

Lemma setProp_other (o : obj) (key : string) (v : value) :
  key <> "__proto__" -> setProp o key v = setOwn o key v.
Proof.
  intros Hne. unfold setProp.
  destruct (String.eqb_spec key "__proto__"); [contradiction|reflexivity].
Qed.

(** Assigning a property the object does not have adds it last. *)
Lemma setProp_fresh (o : obj) (key : string) (v : value) :
  key <> "__proto__" ->
  ~ In key (map fst o) -> setProp o key v = o ++ [(key, v)].
Proof.
  intros Hne. rewrite (setProp_other _ _ _ Hne).
  induction o as [|[k w] rest IH]; simpl; intros Hfresh; [reflexivity|].
  destruct (String.eqb_spec k key) as [->|Hk]; [tauto|].
  rewrite IH by tauto. reflexivity.
Qed.

Lemma setProp_keys (o : obj) (key : string) (v : value) (k : string) :
  In k (map fst (setProp o key v)) -> In k (map fst o) \/ k = key.
Proof.
  unfold setProp. destruct (String.eqb key "__proto__"); [now left|].
  induction o as [|[k0 w] rest IH]; simpl.
  - intros [<-|[]]. now right.
  - destruct (String.eqb_spec k0 key) as [->|Hne]; simpl; intros [H|H]; auto.
    destruct (IH H); auto.
Qed.

(** What occurs in an object after an assignment occurred in it before
    or occurs in the value assigned. *)
Lemma setProp_flatten_in {A : Type} (leaf : value -> list A)
    (o : obj) (key : string) (v : value) (x : A) :
  In x (flat_map (fun kv => flatten leaf (snd kv)) (setProp o key v)) ->
  In x (flat_map (fun kv => flatten leaf (snd kv)) o) \/ In x (flatten leaf v).
Proof.
  unfold setProp. destruct (String.eqb key "__proto__"); [now left|].
  induction o as [|[k w] rest IH]; simpl.
  - rewrite app_nil_r. auto.
  - destruct (String.eqb_spec k key) as [->|Hne]; simpl;
      rewrite !in_app_iff; intros [H|H]; auto.
    destruct (IH H); auto.
Qed.

Lemma flat_map_nil_in {A B : Type} (f : A -> list B) (l : list A) :
  flat_map f l = [] <-> (forall a, In a l -> f a = []).
Proof.
  induction l as [|a l IH]; simpl.
  - split; [intros _ a []|reflexivity].
  - split.
    + intros [Ha Hl]%app_eq_nil a' [<-|H]; [exact Ha|now apply IH].
    + intros H. rewrite (H a) by now left. apply IH. intros; apply H; now right.
Qed.

Lemma setProp_flatten_nil {A : Type} (leaf : value -> list A)
    (o : obj) (key : string) (v : value) :
  flat_map (fun kv => flatten leaf (snd kv)) o = [] ->
  flatten leaf v = [] ->
  flat_map (fun kv => flatten leaf (snd kv)) (setProp o key v) = [].
Proof.
  intros Ho Hv.
  destruct (flat_map (fun kv => flatten leaf (snd kv)) (setProp o key v))
    as [|x l] eqn:E; [reflexivity|].
  assert (Hin : In x (flat_map (fun kv => flatten leaf (snd kv)) (setProp o key v)))
    by (rewrite E; now left).
  apply setProp_flatten_in in Hin. rewrite Ho, Hv in Hin. destruct Hin as [[]|[]].
Qed.

(** Reading a property after an assignment. *)
Lemma lookupProp_setProp_eq (o : obj) (key : string) (v : value) :
  key <> "__proto__" ->
  lookupProp (setProp o key v) key = Some v.
Proof.
  intros Hp. rewrite (setProp_other _ _ _ Hp).
  induction o as [|[k w] rest IH]; simpl.
  - now rewrite String.eqb_refl.
  - destruct (String.eqb_spec k key) as [->|Hne]; simpl.
    + now rewrite String.eqb_refl.
    + apply String.eqb_neq in Hne. now rewrite Hne.
Qed.

Lemma lookupProp_setProp_ne (o : obj) (key key' : string) (v : value) :
  key' <> key -> lookupProp (setProp o key v) key' = lookupProp o key'.
Proof.
  intros Hne. unfold setProp. destruct (String.eqb key "__proto__"); [reflexivity|].
  induction o as [|[k w] rest IH]; simpl.
  - destruct (String.eqb_spec key key'); [congruence|reflexivity].
  - destruct (String.eqb_spec k key) as [->|Hk]; simpl.
    + destruct (String.eqb_spec key key'); [congruence|reflexivity].
    + destruct (String.eqb_spec k key'); [reflexivity|exact IH].
Qed.

Lemma lookupProp_In (o : obj) (key : string) (v : value) :
  lookupProp o key = Some v -> In (key, v) o.
Proof.
  induction o as [|[k w] rest IH]; simpl; [discriminate|].
  destruct (String.eqb_spec k key) as [->|Hne].
  - intros [= ->]. now left.
  - intros H. right. now apply IH.
Qed.

Lemma lookupProp_fresh (o : obj) (key : string) :
  ~ In key (map fst o) -> lookupProp o key = None.
Proof.
  induction o as [|[k w] rest IH]; simpl; [reflexivity|].
  intros Hfresh. destruct (String.eqb_spec k key) as [->|Hne]; [tauto|].
  apply IH. tauto.
Qed.

Lemma getPath_undefined (path : list string) : getPath VUndef path = VUndef.
Proof. induction path as [|k rest IH]; [reflexivity|exact IH]. Qed.

(** Below a value that is not an object there is nothing. *)
Lemma getPath_leaf (v : value) (path : list string) :
  isObject v = false -> path <> [] -> getPath v path = VUndef.
Proof.
  intros Hv Hpath. destruct path as [|k rest]; [congruence|].
  unfold getPath. cbn [foldl].
  replace (getProp v k) with VUndef by (destruct v; try discriminate; reflexivity).
  apply getPath_undefined.
Qed.

Lemma getPath_cons (v : value) (key : string) (path : list string) :
  getPath v (key :: path) = getPath (getProp v key) path.
Proof. reflexivity. Qed.

(** Assignments keep an object well formed. *)
Lemma setProp_NoDup (o : obj) (key : string) (v : value) :
  NoDup (map fst o) -> NoDup (map fst (setProp o key v)).
Proof.
  unfold setProp. destruct (String.eqb key "__proto__"); [tauto|].
  assert (Hkeys : forall o k, In k (map fst (setOwn o key v)) ->
                    In k (map fst o) \/ k = key).
  { clear o. intros o. induction o as [|[k0 w] rest IH]; simpl; intros k.
    - intros [<-|[]]. now right.
    - destruct (String.eqb_spec k0 key) as [->|Hne]; simpl; intros [H|H]; auto.
      destruct (IH k H); auto. }
  induction o as [|[k w] rest IH]; simpl; intros Hnd.
  - apply NoDup_singleton.
  - apply NoDup_cons in Hnd as [Hk Hnd].
    destruct (String.eqb_spec k key) as [->|Hne]; simpl; apply NoDup_cons.
    + now split.
    + split; [|now apply IH].
      rewrite list_elem_of_In in *. intros Hin.
      apply Hkeys in Hin as [Hin|Heq]; [now apply Hk|congruence].
Qed.

Lemma setProp_In (o : obj) (key : string) (v : value) (k : string) (w : value) :
  In (k, w) (setProp o key v) -> In (k, w) o \/ (k = key /\ w = v).
Proof.
  unfold setProp. destruct (String.eqb key "__proto__"); [now left|].
  induction o as [|[k0 w0] rest IH]; simpl.
  - intros [[= <- <-]|[]]. now right.
  - destruct (String.eqb_spec k0 key) as [->|Hne]; simpl.
    + intros [[= <- <-]|H]; auto.
    + intros [H|H]; auto. destruct (IH H); auto.
Qed.

Lemma wellFormed_object (o : obj) :
  wellFormed (VObj o) = true
  <-> NoDup (map fst o) /\ (forall k w, In (k, w) o -> wellFormed w = true).
Proof.
  split; [apply (wellFormed_entries (VObj o))|].
  intros [Hnd Hall]. simpl. apply andb_true_intro. split.
  - now apply bool_decide_eq_true_2.
  - clear Hnd. induction o as [|[k w] rest IH]; [reflexivity|].
    apply andb_true_intro. split.
    + apply (Hall k w). now left.
    + apply IH. intros k' w' H. apply (Hall k' w'). now right.
Qed.

Lemma setProp_wellFormed (o : obj) (key : string) (v : value) :
  wellFormed (VObj o) = true -> wellFormed v = true ->
  wellFormed (VObj (setProp o key v)) = true.
Proof.
  rewrite !wellFormed_object. intros [Hnd Hall] Hv. split.
  - now apply setProp_NoDup.
  - intros k w Hin. apply setProp_In in Hin as [Hin|[_ ->]]; [|exact Hv].
    exact (Hall k w Hin).
Qed.

End Graphs.

(** ** The capability splitter *)

Section Splitter.
Import Js Host Props.

Local Abbreviation callablesIn es := (flat_map (fun kv => callables (snd kv)) es).
Local Abbreviation tokensIn es := (flat_map (fun kv => tokens (snd kv)) es).
Local Abbreviation range a n := (map Z.of_nat (seq a n)).

(** [extractMethods] is its loop body folded over the entries. *)
Lemma extractMethods_entries (source : value) (tbl : list value) :
  extractMethods source tbl
  = foldl (fun acc kv => visit extractMethods (fst kv) (snd kv) acc)
      (Extracted [] [] tbl) (entries source).
Proof.
  destruct source as [| | | | | | |props|elems]; try reflexivity; simpl.
  - generalize (Extracted [] [] tbl).
    induction props as [|[k w] rest IH]; intros acc; [reflexivity|apply IH].
  - generalize (Extracted [] [] tbl). generalize 0.
    induction elems as [|w rest IH]; intros i acc; [reflexivity|apply IH].
Qed.

Lemma callables_object (v : value) :
  isObject v = true -> callables v = callablesIn (entries v).
Proof. intros H. unfold callables. now rewrite flatten_entries, H. Qed.

Lemma tokens_object (o : obj) : tokens (VObj o) = tokensIn o.
Proof. unfold tokens. now rewrite flatten_entries. Qed.

(** The loop body by the kind of the value. *)
Lemma visit_cases (key : string) (v : value) (acc : extracted) :
  visit extractMethods key v acc
  = if isFunction v then
      Extracted (constants acc)
        (setProp (methods acc) key (VNum (Z.of_nat (length (methodsById acc)))))
        (methodsById acc ++ [v])
    else if isObject v then
      Extracted
        (setProp (constants acc) key
           (VObj (constants (extractMethods v (methodsById acc)))))
        (if hasKeys (methods (extractMethods v (methodsById acc)))
         then setProp (methods acc) key
                (VObj (methods (extractMethods v (methodsById acc))))
         else methods acc)
        (methodsById (extractMethods v (methodsById acc)))
    else Extracted (setProp (constants acc) key v) (methods acc) (methodsById acc).
Proof. destruct v; reflexivity. Qed.

Lemma indexKey_not_proto (i : nat) : indexKey i <> "__proto__".
Proof.
  unfold indexKey. intros H.
  apply (f_equal NilEmpty.uint_of_string) in H.
  rewrite NilEmpty.usu in H. discriminate H.
Qed.

Lemma protoFree_entries (v : value) :
  protoFree v = true ->
  forall k w, In (k, w) (entries v) -> k <> "__proto__" /\ protoFree w = true.
Proof.
  destruct v as [| | | | | | |props|elems]; simpl; try (intros _ k w []).
  - induction props as [|[k0 w0] rest IH]; simpl; intros Hall k w H; [destruct H|].
    apply andb_prop in Hall as [Hhead Hall]. apply andb_prop in Hhead as [Hk Hw].
    destruct H as [H|H].
    + injection H as <- <-. split; [|exact Hw].
      apply negb_true_iff in Hk. now apply String.eqb_neq.
    + exact (IH Hall k w H).
  - generalize 0. induction elems as [|w0 rest IH]; simpl; intros i Hall k w H;
      [destruct H|].
    apply andb_prop in Hall as [Hw Hall]. destruct H as [H|H].
    + injection H as <- <-. split; [apply indexKey_not_proto|exact Hw].
    + exact (IH (S i) Hall k w H).
Qed.

Lemma range_app (a n m : nat) :
  range a (n + m) = range a n ++ range (a + n) m.
Proof. now rewrite seq_app, map_app. Qed.

(** What the splitter guarantees for a graph [v], from any table: the
    table grows by the callables of [v]; the tokens of the methods tree
    are some of the positions they took, in order, and all of them when no
    property is named [__proto__]; neither tree holds a function. *)
Local Abbreviation splits v :=
  (forall tbl, wellFormed v = true ->
    methodsById (extractMethods v tbl) = tbl ++ callablesIn (entries v)
    /\ sublist (tokensIn (methods (extractMethods v tbl)))
         (range (length tbl) (length (callablesIn (entries v))))
    /\ (protoFree v = true ->
        tokensIn (methods (extractMethods v tbl))
        = range (length tbl) (length (callablesIn (entries v))))
    /\ callablesIn (constants (extractMethods v tbl)) = []
    /\ callablesIn (methods (extractMethods v tbl)) = []).

(** What one turn of the loop must do to the accumulated result. *)
Local Abbreviation steps key v acc acc' :=
  (methodsById acc' = methodsById acc ++ callables v
   /\ (exists seg,
         tokensIn (methods acc') = tokensIn (methods acc) ++ seg
         /\ sublist seg (range (length (methodsById acc)) (length (callables v)))
         /\ (key <> "__proto__" -> protoFree v = true ->
             seg = range (length (methodsById acc)) (length (callables v))))
   /\ (forall k, In k (map fst (methods acc')) -> In k (map fst (methods acc)) \/ k = key)
   /\ (callablesIn (constants acc) = [] -> callablesIn (constants acc') = [])
   /\ (callablesIn (methods acc) = [] -> callablesIn (methods acc') = [])).

Lemma visit_function (key : string) (v : value) (acc : extracted) :
  isFunction v = true ->
  ~ In key (map fst (methods acc)) ->
  steps key v acc (visit extractMethods key v acc).
Proof.
  intros Hfun Hfresh.
  assert (Hcall : callables v = [v]) by (destruct v; try discriminate Hfun; reflexivity).
  rewrite visit_cases, Hfun, Hcall. cbn [methodsById methods constants length seq map].
  split; [reflexivity|]. split; [|split; [|split]].
  - destruct (String.eqb_spec key "__proto__") as [->|Hne].
    + exists []. rewrite setProp_proto, app_nil_r.
      split; [reflexivity|]. split; [apply sublist_nil_l|congruence].
    + exists [Z.of_nat (length (methodsById acc))].
      rewrite setProp_fresh by assumption.
      rewrite flat_map_app. cbn [flat_map snd]. rewrite app_nil_r.
      split; [reflexivity|]. split; [reflexivity|auto].
  - intros k. apply setProp_keys.
  - tauto.
  - intros Hc. now apply setProp_flatten_nil.
Qed.

Lemma visit_constant (key : string) (v : value) (acc : extracted) :
  isFunction v = false -> isObject v = false ->
  steps key v acc (visit extractMethods key v acc).
Proof.
  intros Hfun Hobj.
  assert (Hcall : callables v = []) by (destruct v; try discriminate; reflexivity).
  rewrite visit_cases, Hfun, Hobj, Hcall.
  cbn [methodsById methods constants length seq map].
  rewrite app_nil_r. split; [reflexivity|]. split; [|split; [|split]].
  - exists []. rewrite app_nil_r. split; [reflexivity|]. split; [reflexivity|auto].
  - auto.
  - intros Hc. now apply setProp_flatten_nil.
  - tauto.
Qed.

Lemma visit_object (key : string) (v : value) (acc : extracted) :
  isObject v = true -> splits v -> wellFormed v = true ->
  ~ In key (map fst (methods acc)) ->
  steps key v acc (visit extractMethods key v acc).
Proof.
  intros Hobj Hv Hwf Hfresh.
  assert (Hfun : isFunction v = false) by (destruct v; try discriminate; reflexivity).
  destruct (Hv (methodsById acc) Hwf) as (Htbl & Hsub & Hall & Hcc & Hcm).
  rewrite <- (callables_object v Hobj) in Htbl, Hsub, Hall.
  rewrite visit_cases, Hfun, Hobj. cbn [methodsById methods constants].
  split; [exact Htbl|].
  assert (Hctree : forall o, callables (VObj o) = callablesIn o)
    by (intros o; now apply callables_object).
  split; [|split; [|split]].
  - destruct (String.eqb_spec key "__proto__") as [->|Hne].
    + exists []. rewrite setProp_proto, app_nil_r.
      split; [now destruct (hasKeys _)|]. split; [apply sublist_nil_l|congruence].
    + exists (tokensIn (methods (extractMethods v (methodsById acc)))).
      split; [|split; [exact Hsub|intros _; exact Hall]].
      destruct (methods (extractMethods v (methodsById acc))) as [|m ms]; cbn [hasKeys].
      * simpl. now rewrite app_nil_r.
      * rewrite setProp_fresh by assumption.
        rewrite flat_map_app. cbn [flat_map snd].
        now rewrite app_nil_r, tokens_object.
  - intros k. destruct (hasKeys _); [apply setProp_keys|auto].
  - intros Hc. apply setProp_flatten_nil; [exact Hc|now rewrite Hctree].
  - intros Hc. destruct (hasKeys _); [|exact Hc].
    apply setProp_flatten_nil; [exact Hc|now rewrite Hctree].
Qed.

(** One turn of the loop, for an entry whose key is new to the methods
    tree built so far. *)
Lemma visit_step (key : string) (v : value) (acc : extracted) :
  splits v -> wellFormed v = true ->
  ~ In key (map fst (methods acc)) ->
  steps key v acc (visit extractMethods key v acc).
Proof.
  intros Hv Hwf Hfresh.
  destruct (isFunction v) eqn:Hfun; [now apply visit_function|].
  destruct (isObject v) eqn:Hobj; [now apply visit_object|].
  now apply visit_constant.
Qed.

(** The loop over a list of entries with distinct keys. *)
Lemma extract_loop (ps : obj) :
  (forall k w, In (k, w) ps -> splits w) ->
  (forall k w, In (k, w) ps -> wellFormed w = true) ->
  NoDup (map fst ps) ->
  forall acc,
    (forall k, In k (map fst (methods acc)) -> ~ In k (map fst ps)) ->
    let r := foldl (fun acc kv => visit extractMethods (fst kv) (snd kv) acc) acc ps in
    methodsById r = methodsById acc ++ callablesIn ps
    /\ (exists seg,
          tokensIn (methods r) = tokensIn (methods acc) ++ seg
          /\ sublist seg (range (length (methodsById acc)) (length (callablesIn ps)))
          /\ ((forall k w, In (k, w) ps -> k <> "__proto__" /\ protoFree w = true) ->
              seg = range (length (methodsById acc)) (length (callablesIn ps))))
    /\ (callablesIn (constants acc) = [] -> callablesIn (constants r) = [])
    /\ (callablesIn (methods acc) = [] -> callablesIn (methods r) = []).
Proof.
  induction ps as [|[k w] rest IH]; intros Hsub Hwf Hnd acc Hfresh.
  - simpl. rewrite !app_nil_r. split; [reflexivity|]. split; [|auto].
    exists []. rewrite app_nil_r. split; [reflexivity|]. split; [reflexivity|auto].
  - simpl in Hnd. apply NoDup_cons in Hnd as [Hk Hnd].
    rewrite list_elem_of_In in Hk.
    destruct (visit_step k w acc) as (Htbl & (seg1 & Htok & Hs1 & He1) & Hkeys & Hcc & Hcm).
    { exact (Hsub k w (or_introl eq_refl)). }
    { exact (Hwf k w (or_introl eq_refl)). }
    { intros Hin. apply (Hfresh k Hin). now left. }
    specialize (IH (fun k' w' H => Hsub k' w' (or_intror H))
                   (fun k' w' H => Hwf k' w' (or_intror H)) Hnd
                   (visit extractMethods k w acc)).
    destruct IH as (Htbl' & (seg2 & Htok' & Hs2 & He2) & Hcc' & Hcm').
    { intros k' Hin Hrest. destruct (Hkeys k' Hin) as [Hold| ->].
      - apply (Hfresh k' Hold). now right.
      - exact (Hk Hrest). }
    cbn [foldl fst snd flat_map]. cbv zeta in *.
    rewrite Htbl in Htbl', Hs2, He2. rewrite length_app in Hs2, He2.
    split; [now rewrite Htbl', <- app_assoc|]. split; [|auto].
    exists (seg1 ++ seg2). rewrite length_app, range_app.
    split; [now rewrite Htok', Htok, <- app_assoc|].
    split; [now apply sublist_app|].
    intros Hfree. rewrite He1, He2; [reflexivity| | |].
    + intros k' w' H. apply Hfree. now right.
    + apply (Hfree k w). now left.
    + apply (Hfree k w). now left.
Qed.

(** The splitter on any well-formed graph. *)
Lemma extractMethods_splits (v : value) : splits v.
Proof.
  induction v as [v IH] using value_entries_ind. intros tbl Hwf.
  destruct (wellFormed_entries v Hwf) as [Hnd Hsub].
  rewrite extractMethods_entries.
  destruct (extract_loop (entries v) IH Hsub Hnd (Extracted [] [] tbl))
    as (Htbl & (seg & Htok & Hs & He) & Hcc & Hcm); [intros k []|].
  cbv zeta in *. cbn [methodsById methods constants flat_map app] in *.
  rewrite Htok. split; [exact Htbl|]. split; [exact Hs|]. split; [|auto].
  intros Hfree. apply He. now apply protoFree_entries.
Qed.

(** *** Where the tokens sit *)

Local Abbreviation loop acc ps :=
  (foldl (fun acc kv => visit extractMethods (fst kv) (snd kv) acc) acc ps).

(** The entry of the methods tree that a key leads to. *)
Local Abbreviation entryAt acc key :=
  (default VUndef (lookupProp (methods acc) key)).

(** A function found in [v] along a path that does not go through
    [__proto__] has, at the same path of the methods tree, the index at
    which the table holds it. *)
Local Abbreviation located v :=
  (forall tbl, wellFormed v = true ->
   forall path f, isFunction f = true -> path <> [] ->
   ~ In "__proto__" path -> getPath v path = f ->
   exists i, getPath (VObj (methods (extractMethods v tbl))) path = VNum (Z.of_nat i)
             /\ methodsById (extractMethods v tbl) !! i = Some f).

Lemma visit_lookup_other (key : string) (v : value) (acc : extracted) (k : string) :
  k <> key ->
  lookupProp (methods (visit extractMethods key v acc)) k = lookupProp (methods acc) k.
Proof.
  intros Hne. rewrite visit_cases.
  destruct (isFunction v); [|destruct (isObject v)]; cbn [methods].
  - now apply lookupProp_setProp_ne.
  - destruct (hasKeys _); [now apply lookupProp_setProp_ne|reflexivity].
  - reflexivity.
Qed.

Lemma loop_lookup_other (ps : obj) (acc : extracted) (k : string) :
  ~ In k (map fst ps) ->
  lookupProp (methods (loop acc ps)) k = lookupProp (methods acc) k.
Proof.
  revert acc. induction ps as [|[k0 w0] rest IH]; intros acc Hk; [reflexivity|].
  cbn [foldl fst snd]. simpl in Hk. rewrite IH by tauto.
  apply visit_lookup_other. intros ->. tauto.
Qed.

Lemma isFunction_not_object (f : value) : isFunction f = true -> isObject f = false.
Proof. now destruct f. Qed.

Lemma visit_path (key : string) (w : value) (acc : extracted) :
  located w -> wellFormed w = true ->
  key <> "__proto__" ->
  forall rest f, isFunction f = true -> ~ In "__proto__" rest -> getPath w rest = f ->
  exists i,
    getPath (entryAt (visit extractMethods key w acc) key) rest = VNum (Z.of_nat i)
    /\ methodsById (visit extractMethods key w acc) !! i = Some f.
Proof.
  intros Hloc Hwf Hkey rest f Hf Hfree Hpath.
  rewrite visit_cases. destruct (isObject w) eqn:Hobj.
  - (* an object: the function lies below it *)
    assert (Hfun : isFunction w = false) by (destruct w; try discriminate; reflexivity).
    rewrite Hfun.
    assert (Hrest : rest <> []).
    { intros ->. cbn in Hpath. subst f.
      apply isFunction_not_object in Hf. congruence. }
    destruct (Hloc (methodsById acc) Hwf rest f Hf Hrest Hfree Hpath) as (i & Hi & Htbl).
    cbn [methods methodsById].
    destruct (methods (extractMethods w (methodsById acc))) as [|m ms] eqn:Hm.
    + exfalso. destruct rest as [|k rest']; [congruence|].
      rewrite getPath_cons in Hi. cbn in Hi.
      now rewrite getPath_undefined in Hi.
    + cbn [hasKeys]. rewrite lookupProp_setProp_eq by assumption.
      exists i. now split.
  - (* a leaf: it is the function itself, or nothing is below it *)
    destruct rest as [|k rest'].
    + cbn in Hpath. subst f. rewrite Hf. cbn [methods methodsById].
      rewrite lookupProp_setProp_eq by assumption.
      exists (length (methodsById acc)).
      split; [reflexivity|]. apply list_lookup_middle. reflexivity.
    + rewrite (getPath_leaf w (k :: rest') Hobj) in Hpath by discriminate.
      subst f. discriminate Hf.
Qed.

Lemma visit_keys (key : string) (v : value) (acc : extracted) (k : string) :
  (In k (map fst (constants (visit extractMethods key v acc))) ->
   In k (map fst (constants acc)) \/ k = key)
  /\ (In k (map fst (methods (visit extractMethods key v acc))) ->
      In k (map fst (methods acc)) \/ k = key).
Proof.
  rewrite visit_cases.
  destruct (isFunction v); [|destruct (isObject v)]; cbn [constants methods];
    split; auto; try apply setProp_keys.
  destruct (hasKeys _); [apply setProp_keys|auto].
Qed.

Lemma loop_path (ps : obj) :
  (forall k w, In (k, w) ps -> located w) ->
  (forall k w, In (k, w) ps -> wellFormed w = true) ->
  NoDup (map fst ps) ->
  forall acc,
    (forall k, In k (map fst (methods acc)) -> ~ In k (map fst ps)) ->
    forall k w, In (k, w) ps -> k <> "__proto__" ->
    forall rest f, isFunction f = true -> ~ In "__proto__" rest -> getPath w rest = f ->
    exists i, getPath (entryAt (loop acc ps) k) rest = VNum (Z.of_nat i)
              /\ methodsById (loop acc ps) !! i = Some f.
Proof.
  induction ps as [|[k0 w0] ps' IH];
    intros Hloc Hwf Hnd acc Hfresh k w Hin Hk rest f Hf Hfree Hpath; [destruct Hin|].
  simpl in Hnd. apply NoDup_cons in Hnd as [Hk0 Hnd]. rewrite list_elem_of_In in Hk0.
  assert (Hfresh' : forall k', In k' (map fst (methods (visit extractMethods k0 w0 acc))) ->
                      ~ In k' (map fst ps')).
  { intros k' Hk' Hrest. destruct (proj2 (visit_keys k0 w0 acc k') Hk') as [Hold| ->].
    - apply (Hfresh k' Hold). now right.
    - exact (Hk0 Hrest). }
  cbn [foldl fst snd]. destruct Hin as [[= -> ->]|Hin].
  - destruct (visit_path k w acc (Hloc k w (or_introl eq_refl))
                (Hwf k w (or_introl eq_refl)) Hk rest f Hf Hfree Hpath) as (i & Hi & Htbl).
    exists i. split.
    + now rewrite loop_lookup_other.
    + destruct (extract_loop ps'
                  (fun k' w' _ => extractMethods_splits w')
                  (fun k' w' H => Hwf k' w' (or_intror H)) Hnd
                  (visit extractMethods k w acc) Hfresh') as (Happ & _).
      cbv zeta in Happ. rewrite Happ. now apply lookup_app_l_Some.
  - apply (IH (fun k' w' H => Hloc k' w' (or_intror H))
              (fun k' w' H => Hwf k' w' (or_intror H)) Hnd
              (visit extractMethods k0 w0 acc) Hfresh' k w Hin Hk rest f Hf Hfree Hpath).
Qed.

(** Every function of a well-formed graph whose path avoids [__proto__]
    is found again through the methods tree: the same path leads to a
    token, and the table holds the function at that token. *)
Lemma extractMethods_located (v : value) : located v.
Proof.
  induction v as [v IH] using value_entries_ind.
  intros tbl Hwf path f Hf Hpath Hfree Hget.
  destruct (wellFormed_entries v Hwf) as [Hnd Hsub].
  destruct path as [|k rest]; [congruence|].
  rewrite getPath_cons in Hget. unfold getProp in Hget.
  destruct (lookupProp (entries v) k) as [w|] eqn:Hk.
  - apply lookupProp_In in Hk. rewrite extractMethods_entries.
    apply (loop_path (entries v) IH Hsub Hnd (Extracted [] [] tbl)
             ltac:(intros ? []) k w Hk ltac:(intros ->; apply Hfree; now left)
             rest f Hf ltac:(intros H; apply Hfree; now right) Hget).
  - cbn in Hget. rewrite getPath_undefined in Hget. subst f. discriminate Hf.
Qed.

(** The methods tree is a well-formed tree, whatever the source. *)
Lemma methods_wellFormed (v : value) :
  forall tbl, wellFormed (VObj (methods (extractMethods v tbl))) = true.
Proof.
  induction v as [v IH] using value_entries_ind. intros tbl.
  rewrite extractMethods_entries.
  assert (Hacc : wellFormed (VObj (methods (Extracted [] [] tbl))) = true) by reflexivity.
  revert Hacc. generalize (Extracted [] [] tbl).
  induction (entries v) as [|[k w] rest IHrest]; intros acc Hacc; [exact Hacc|].
  cbn [foldl fst snd]. apply IHrest.
  - intros k' w' H. apply (IH k' w'). now right.
  - assert (Hw := IH k w (or_introl eq_refl) (methodsById acc)).
    rewrite visit_cases.
    destruct (isFunction w); [|destruct (isObject w)]; cbn [methods].
    + now apply setProp_wellFormed.
    + destruct (hasKeys _); [now apply setProp_wellFormed|exact Hacc].
    + exact Hacc.
Qed.

End Splitter.

(** ** The merge in the worker *)

Section Merge.
Import Js Worker.

Local Abbreviation hostIn es := (flat_map (fun kv => hostFunctions (snd kv)) es).
Local Abbreviation proxiesIn es := (flat_map (fun kv => proxies (snd kv)) es).
Local Abbreviation tokensIn es := (flat_map (fun kv => tokens (snd kv)) es).

(** [injectMethods] is its loop body folded over the entries. *)
Lemma injectMethods_entries (methods : value) (dest : obj) :
  injectMethods methods dest
  = foldl (fun dest kv => inject injectMethods (fst kv) (snd kv) dest)
      dest (entries methods).
Proof.
  destruct methods as [| | | | | | |props|elems]; try reflexivity; simpl.
  - revert dest. induction props as [|[k w] rest IH]; intros dest;
      [reflexivity|apply IH].
  - revert dest. generalize 0.
    induction elems as [|w rest IH]; intros i dest; [reflexivity|apply IH].
Qed.

Lemma hostFunctions_object (o : obj) : hostFunctions (VObj o) = hostIn o.
Proof. unfold hostFunctions. now rewrite flatten_entries. Qed.

Lemma proxies_object (o : obj) : proxies (VObj o) = proxiesIn o.
Proof. unfold proxies. now rewrite flatten_entries. Qed.

(** The merge never puts a host function into the destination. *)
Lemma injectMethods_no_host_function (methods : value) :
  forall dest, hostIn dest = [] -> hostIn (injectMethods methods dest) = [].
Proof.
  induction methods as [m IH] using value_entries_ind. intros dest.
  rewrite injectMethods_entries. revert dest.
  induction (entries m) as [|[k w] rest IHrest]; intros dest Hdest; [exact Hdest|].
  cbn [foldl fst snd]. apply IHrest.
  - intros k' w' H. apply (IH k' w'). now right.
  - assert (Hw := IH k w (or_introl eq_refl) [] eq_refl).
    destruct w; try exact Hdest; unfold inject; simpl;
      (apply setProp_flatten_nil; [exact Hdest|]);
      try reflexivity; now rewrite hostFunctions_object.
Qed.

(** Every proxy of the merged tree was in the destination or carries a
    token of the methods tree. *)
Lemma injectMethods_proxies (methods : value) :
  forall dest t,
    In t (proxiesIn (injectMethods methods dest)) ->
    In t (proxiesIn dest) \/ In t (tokensIn (entries methods)).
Proof.
  induction methods as [m IH] using value_entries_ind. intros dest t.
  rewrite injectMethods_entries. revert dest.
  induction (entries m) as [|[k w] rest IHrest]; intros dest Hin; [now left|].
  cbn [foldl fst snd] in Hin. apply IHrest in Hin.
  2: { intros k' w' H. apply (IH k' w'). now right. }
  cbn [flat_map snd]. rewrite in_app_iff.
  destruct Hin as [Hin|Hin]; [|tauto].
  assert (Hw := IH k w (or_introl eq_refl) [] t).
  assert (Htok : forall o, tokens o = if isObject o then tokensIn (entries o)
                                       else match o with VNum n => [n] | _ => [] end)
    by (intros o; unfold tokens; now rewrite flatten_entries).
  destruct w; try (now left); simpl in Hin;
    apply setProp_flatten_in in Hin as [Hin|Hin]; try (now left);
    right; left; rewrite Htok; cbn [isObject].
  - exact Hin.
  - rewrite proxies_object in Hin. destruct (Hw Hin) as [[]|H]. exact H.
  - rewrite proxies_object in Hin. destruct (Hw Hin) as [[]|H]. exact H.
Qed.

(** *** Where the proxies sit *)

Local Abbreviation merge dest ps :=
  (foldl (fun dest kv => inject injectMethods (fst kv) (snd kv) dest) dest ps).

(** A token found in the methods tree [m] along a path that does not go
    through [__proto__] has a proxy for it at the same path of the merged
    tree. *)
Local Abbreviation proxied m :=
  (forall dest, wellFormed m = true ->
   forall path t, path <> [] -> ~ In "__proto__" path -> getPath m path = VNum t ->
   getPath (VObj (injectMethods m dest)) path = VProxy t).

Lemma inject_lookup_other (key : string) (v : value) (dest : obj) (k : string) :
  k <> key ->
  lookupProp (inject injectMethods key v dest) k = lookupProp dest k.
Proof.
  intros Hne. destruct v; unfold inject; simpl; try reflexivity;
    now apply lookupProp_setProp_ne.
Qed.

Lemma merge_lookup_other (ps : obj) (dest : obj) (k : string) :
  ~ In k (map fst ps) -> lookupProp (merge dest ps) k = lookupProp dest k.
Proof.
  revert dest. induction ps as [|[k0 w0] rest IH]; intros dest Hk; [reflexivity|].
  cbn [foldl fst snd]. simpl in Hk. rewrite IH by tauto.
  apply inject_lookup_other. intros ->. tauto.
Qed.

Lemma inject_path (key : string) (w : value) (dest : obj) :
  proxied w -> wellFormed w = true -> key <> "__proto__" ->
  forall rest t, ~ In "__proto__" rest -> getPath w rest = VNum t ->
  getPath (default VUndef (lookupProp (inject injectMethods key w dest) key)) rest
  = VProxy t.
Proof.
  intros Hw Hwf Hkey rest t Hfree Hpath. destruct (isObject w) eqn:Hobj.
  - assert (Hrest : rest <> []) by (intros ->; cbn in Hpath; subst w; discriminate Hobj).
    replace (inject injectMethods key w dest)
      with (setProp dest key (VObj (injectMethods w [])))
      by (destruct w; try discriminate; reflexivity).
    rewrite lookupProp_setProp_eq by assumption.
    exact (Hw [] Hwf rest t Hrest Hfree Hpath).
  - destruct rest as [|k rest'].
    + cbn in Hpath. subst w. unfold inject. simpl.
      now rewrite lookupProp_setProp_eq.
    + rewrite (getPath_leaf w (k :: rest') Hobj) in Hpath by discriminate.
      discriminate Hpath.
Qed.

Lemma merge_path (ps : obj) :
  (forall k w, In (k, w) ps -> proxied w) ->
  (forall k w, In (k, w) ps -> wellFormed w = true) ->
  NoDup (map fst ps) ->
  forall dest k w, In (k, w) ps -> k <> "__proto__" ->
  forall rest t, ~ In "__proto__" rest -> getPath w rest = VNum t ->
  getPath (default VUndef (lookupProp (merge dest ps) k)) rest = VProxy t.
Proof.
  induction ps as [|[k0 w0] ps' IH];
    intros Hsub Hwf Hnd dest k w Hin Hk rest t Hfree Hpath; [destruct Hin|].
  simpl in Hnd. apply NoDup_cons in Hnd as [Hk0 Hnd]. rewrite list_elem_of_In in Hk0.
  cbn [foldl fst snd]. destruct Hin as [[= -> ->]|Hin].
  - rewrite merge_lookup_other by exact Hk0.
    apply inject_path; [exact (Hsub k w (or_introl eq_refl))
                       |exact (Hwf k w (or_introl eq_refl))| | |]; assumption.
  - apply (IH (fun k' w' H => Hsub k' w' (or_intror H))
              (fun k' w' H => Hwf k' w' (or_intror H)) Hnd _ k w Hin Hk
              rest t Hfree Hpath).
Qed.

(** The merge puts a proxy wherever the methods tree has a token. *)
Lemma injectMethods_proxied (m : value) : proxied m.
Proof.
  induction m as [m IH] using value_entries_ind.
  intros dest Hwf path t Hpath Hfree Hget.
  destruct (wellFormed_entries m Hwf) as [Hnd Hsub].
  destruct path as [|k rest]; [congruence|].
  rewrite getPath_cons in Hget |- *. unfold getProp in Hget |- *.
  destruct (lookupProp (entries m) k) as [w|] eqn:Hk.
  - apply lookupProp_In in Hk. rewrite injectMethods_entries.
    exact (merge_path (entries m) IH Hsub Hnd dest k w Hk
             ltac:(intros ->; apply Hfree; now left) rest t
             ltac:(intros H; apply Hfree; now right) Hget).
  - cbn in Hget. rewrite getPath_undefined in Hget. discriminate Hget.
Qed.

End Merge.

(** ** Tokens, dispatch and proxies together *)

Section Capabilities.
Import Js Host Props.

Lemma flatten_nil_transfer {A B : Type}
    (leaf : value -> list A) (leaf' : value -> list B) :
  (forall v, leaf v = [] -> leaf' v = []) ->
  forall v, flatten leaf v = [] -> flatten leaf' v = [].
Proof.
  intros Hleaf v. induction v as [v IH] using value_entries_ind.
  rewrite !flatten_entries. destruct (isObject v); [|apply Hleaf].
  rewrite !flat_map_nil_in. intros H [k w] Hin. simpl.
  apply (IH k w Hin), (H (k, w) Hin).
Qed.

Lemma callables_none (v : value) :
  callables v = [] -> hostFunctions v = [] /\ proxies v = [].
Proof.
  intros H. split; revert H; apply flatten_nil_transfer;
    intros w; destruct w; simpl; congruence.
Qed.

Lemma onMethod_lookup (tbl : list value) (i f : nat) (params : list value) :
  tbl !! i = Some (VFun f) ->
  onMethod tbl (VNum (Z.of_nat i)) params = Invoke f params.
Proof.
  intros Hi. unfold onMethod. cbn [typeof String.eqb index].
  assert (Hlt := lookup_lt_Some _ _ _ Hi).
  replace ((0 <=? Z.of_nat i)%Z && (Z.of_nat i <? Z.of_nat (length tbl))%Z) with true
    by (symmetry; apply andb_true_intro; split;
        [apply Z.leb_le|apply Z.ltb_lt]; lia).
  now rewrite Nat2Z.id, nth_lookup, Hi.
Qed.

(** C5. Splitting a well-formed globals graph from the empty table leaves
    in the table the callables of the graph in traversal order: the i-th
    callable met takes token i, so the tokens handed out are
    [0, 1, ..., n-1], one per callable.  The tokens written into the
    methods tree are tokens of that list, in the same order and none
    twice, and they are all of them unless a property is named
    [__proto__] (an assignment to that name stores nothing).  Dispatching
    a token runs the function that took that position.  Neither tree sent
    to the worker holds a function; after the merge the worker's tree
    holds no host function, only proxies whose method ids are among the
    tokens, and where the graph has a function at a path that avoids
    [__proto__] the worker has the proxy whose token dispatches to that
    very function. *)
Theorem split_tokens_dispatch (globals : obj) (params : list value) :
  wellFormed (VObj globals) = true ->
  let r := extractMethods (VObj globals) [] in
  let n := length (callables (VObj globals)) in
  let merged := Worker.injectMethods (VObj (methods r)) (constants r) in
  methodsById r = callables (VObj globals)
  /\ sublist (tokens (VObj (methods r))) (map Z.of_nat (seq 0 n))
  /\ (protoFree (VObj globals) = true ->
      tokens (VObj (methods r)) = map Z.of_nat (seq 0 n))
  /\ (forall i f, i < n -> nth i (callables (VObj globals)) VUndef = VFun f ->
        onMethod (methodsById r) (VNum (Z.of_nat i)) params = Invoke f params)
  /\ cloneable (VObj (constants r)) = true
  /\ cloneable (VObj (methods r)) = true
  /\ hostFunctions (VObj merged) = []
  /\ (forall t, In t (proxies (VObj merged)) -> (0 <= t < Z.of_nat n)%Z)
  /\ (forall path f, path <> [] -> ~ In "__proto__" path ->
        getPath (VObj globals) path = VFun f ->
        exists i,
          getPath (VObj merged) path = VProxy (Z.of_nat i)
          /\ call (VProxy (Z.of_nat i)) params = Request (Z.of_nat i) params
          /\ onMethod (methodsById r) (VNum (Z.of_nat i)) params = Invoke f params).
Proof.
  intros Hwf r n merged.
  destruct (extractMethods_splits (VObj globals) [] Hwf)
    as (Htbl & Hsub & Htok & Hcc & Hcm).
  rewrite <- (callables_object (VObj globals) eq_refl) in Htbl, Hsub, Htok.
  fold r in Htbl, Hsub, Htok, Hcc, Hcm. fold n in Hsub, Htok.
  cbn [app length] in Htbl, Hsub, Htok.
  assert (Hc : callables (VObj (constants r)) = [])
    by now rewrite (callables_object (VObj (constants r)) eq_refl).
  assert (Hm : callables (VObj (methods r)) = [])
    by now rewrite (callables_object (VObj (methods r)) eq_refl).
  split; [exact Htbl|]. split; [now rewrite tokens_object|].
  split; [now rewrite tokens_object|].
  split; [|split; [|split; [|split; [|split]]]].
  - intros i f Hi Hnth. apply onMethod_lookup.
    rewrite Htbl. destruct (lookup_lt_is_Some_2 _ _ Hi) as [x Hx].
    rewrite (nth_lookup_Some _ _ VUndef _ Hx) in Hnth. now subst x.
  - unfold cloneable. now rewrite Hc.
  - unfold cloneable. now rewrite Hm.
  - unfold merged. rewrite hostFunctions_object. apply injectMethods_no_host_function.
    rewrite <- hostFunctions_object. now apply callables_none.
  - intros t Hin. unfold merged in Hin. rewrite proxies_object in Hin.
    apply injectMethods_proxies in Hin as [Hin|Hin].
    + rewrite <- proxies_object in Hin.
      destruct (callables_none _ Hc) as [_ Hp]. rewrite Hp in Hin. destruct Hin.
    + simpl in Hin. apply list_elem_of_In in Hin.
      apply (sublist_subseteq _ _ Hsub) in Hin. apply list_elem_of_In in Hin.
      apply in_map_iff in Hin as (i & <- & Hi). apply in_seq in Hi. lia.
  - intros path f Hpath Hfree Hget.
    destruct (extractMethods_located (VObj globals) [] Hwf path (VFun f)
                eq_refl Hpath Hfree Hget) as (i & Hi & Hlook).
    fold r in Hi, Hlook. exists i. split; [|split].
    + exact (injectMethods_proxied (VObj (methods r)) (constants r)
               (methods_wellFormed (VObj globals) []) path (Z.of_nat i) Hpath Hfree Hi).
    + reflexivity.
    + now apply onMethod_lookup.
Qed.

End Capabilities.

(** ** Where the code departs from its documentation *)

Section Departures.
Import Js Host.

(** C1 fails on a constant that sits next to a callable.  For
    [{ math: { pi: 3, add: f } }] the splitter keeps [pi] in the constants
    tree, but the merge stores a fresh empty object at [math] before it
    adds the proxy, so in the worker [return math.pi] yields
    [undefined]. *)
Theorem sibling_constant_lost :
  getPath (VObj Samples.mathGlobals) ["math"; "pi"] = VNum 3
  /\ getPath (VObj (constants (extractMethods (VObj Samples.mathGlobals) [])))
       ["math"; "pi"] = VNum 3
  /\ Worker.injectMethods
       (VObj (methods (extractMethods (VObj Samples.mathGlobals) [])))
       (constants (extractMethods (VObj Samples.mathGlobals) []))
     = [("math", VObj [("add", VProxy 0)])]
  /\ (g ← Worker.setGlobals
            (constants (extractMethods (VObj Samples.mathGlobals) []))
            (methods (extractMethods (VObj Samples.mathGlobals) [])) [∅];
      Some (Worker.run g "math" ["pi"])) = Some (Normal VUndef).
Proof. repeat split. Qed.

(** C2 fails: the splitter walks into arrays.  An array of constants
    comes out as a plain object keyed by the indices, and a function in
    an array element gets a token and an entry in the methods tree. *)
Theorem arrays_are_traversed :
  extractMethods (VObj Samples.arrayGlobals) []
  = {| constants := [("fruit", VObj [("0", VStr "apple"); ("1", VStr "banana")]);
                     ("handlers", VObj [])];
       methods := [("handlers", VObj [("0", VNum 0)])];
       methodsById := [VFun 7] |}.
Proof. reflexivity. Qed.

End Departures.

(** ** Instances *)

Section Instances.
Import Js Host Worker Utils.

Lemma escapeHtml_single_pass_witness :
  occurs "&"%char (escapeHtml "<a>")
  /\ ~ In "&"%char raw
  /\ ~ In "a"%char (amp :: raw)
  /\ escapeHtml ("<" +:+ String "a" ">") = escapeHtml "<" +:+ String "a" (escapeHtml ">").
Proof.
  assert (Hocc : occurs "&"%char (escapeHtml "<a>")) by (vm_compute; tauto).
  assert (Ha : ~ In "a"%char (amp :: raw))
    by (intros H; repeat (destruct H as [H|H]; [discriminate H|]); exact H).
  split; [exact Hocc|]. split; [|split; [exact Ha|]].
  - exact (proj1 (proj2 (escapeHtml_single_pass "<a>")) "&"%char Hocc).
  - exact (proj2 (proj2 (escapeHtml_single_pass "")) "a"%char "<" ">" Ha).
Defined.

Lemma onMethod_not_a_number_witness :
  typeof (VStr "push") <> "number"
  /\ onMethod [VFun 0] (VStr "push") [VNum 1] = Normal VUndef.
Proof.
  assert (H : typeof (VStr "push") <> "number") by discriminate.
  split; [exact H|]. exact (onMethod_not_a_number [VFun 0] (VStr "push") [VNum 1] H).
Defined.

Lemma onMethod_invalid_token_witness :
  validIndex [VFun 0] (VNum (-1)) = false
  /\ onMethod [VFun 0] (VNum (-1)) [] = Throw TypeError.
Proof.
  split; [reflexivity|].
  exact (onMethod_invalid_token [VFun 0] (VNum (-1)) [] eq_refl).
Defined.

Lemma split_tokens_dispatch_witness :
  wellFormed (VObj Samples.nestedGlobals) = true
  /\ Props.protoFree (VObj Samples.nestedGlobals) = true
  /\ methodsById (extractMethods (VObj Samples.nestedGlobals) [])
     = [VFun 10; VFun 11; VFun 12]
  /\ tokens (VObj (methods (extractMethods (VObj Samples.nestedGlobals) [])))
     = [0; 1; 2]%Z
  /\ onMethod (methodsById (extractMethods (VObj Samples.nestedGlobals) []))
       (VNum 1) [VNum 4; VNum 5]
     = Invoke 11 [VNum 4; VNum 5]
  /\ exists i,
       getPath (VObj (injectMethods
                        (VObj (methods (extractMethods (VObj Samples.nestedGlobals) [])))
                        (constants (extractMethods (VObj Samples.nestedGlobals) []))))
         ["math"; "multiply"] = VProxy (Z.of_nat i)
       /\ onMethod (methodsById (extractMethods (VObj Samples.nestedGlobals) []))
            (VNum (Z.of_nat i)) [VNum 4; VNum 5]
          = Invoke 11 [VNum 4; VNum 5].
Proof.
  assert (Hwf : wellFormed (VObj Samples.nestedGlobals) = true) by reflexivity.
  assert (Hfree : Props.protoFree (VObj Samples.nestedGlobals) = true) by reflexivity.
  destruct (split_tokens_dispatch Samples.nestedGlobals [VNum 4; VNum 5] Hwf)
    as (Htbl & _ & Htok & Hcall & _ & _ & _ & _ & Hpath).
  split; [exact Hwf|]. split; [exact Hfree|]. split; [exact Htbl|].
  split; [exact (Htok Hfree)|]. split.
  - apply (Hcall 1 11); [repeat constructor|reflexivity].
  - destruct (Hpath ["math"; "multiply"] 11) as (i & Hi & _ & Hon);
      [discriminate|intros [H|[H|[]]]; discriminate H|reflexivity|].
    exists i. split; [exact Hi|exact Hon].
Defined.


End Instances.

(** ** Examples *)

Example escapeHtml_sample :
Utils.escapeHtml "a<b & 'c'>" = "a&lt;b &amp; &#39;c&#39;&gt;".
Proof. reflexivity. Qed.

Example escapeHtml_not_idempotent :
Utils.escapeHtml (Utils.escapeHtml "<") = "&amp;lt;".
Proof. reflexivity. Qed.

Example replaceAll_script :
Utils.replaceAll "</script" "<\/script" "x</script></script>y"
= "x<\/script><\/script>y".
Proof. reflexivity. Qed.

Example replaceAll_empty_pattern : Utils.replaceAll "" "x" "ab" = "xaxbx".
Proof. reflexivity. Qed.

Example scrub_refused_on_frozen_getter :
Worker.scrub [ {[ "location" := Worker.Accessor (Some 6) None true false ]} ] = None.
Proof. reflexivity. Qed.

Example blocked_name_cannot_be_installed :
(g ← Worker.scrub [ ∅; {[ "name" := Worker.Accessor (Some 2) (Some 3) true true ]} ];
 Worker.setGlobals [("name", Js.VStr "x")] [] g) = None.
Proof. reflexivity. Qed.

Example nested_proxy_reaches_host :
let r := Host.extractMethods
           (Js.VObj [("a", Js.VObj [("b", Js.VObj [("getValue", Js.VFun 9)])])]) [] in
Js.call (Js.getPath (Js.VObj (Worker.injectMethods (Js.VObj (Host.methods r))
                                (Host.constants r)))
           ["a"; "b"; "getValue"]) []
= Js.Request 0 []
/\ Host.onMethod (Host.methodsById r) (Js.VNum 0) [] = Js.Invoke 9 [].
Proof. split; reflexivity. Qed.


(* ===================================================================== *)
(** * Further properties                                                  *)
(* ===================================================================== *)

(** ** The relay *)

Section RelayProperties.
Import Js Relay.

Lemma spawns_app (a b : list effect) : spawns (a ++ b) = spawns a + spawns b.
Proof. unfold spawns. now rewrite List.filter_app, length_app. Qed.

Lemma steps_cons (st : state) (e : event) (es : list event) :
  steps st (e :: es)
  = (fst (steps (fst (step st e)) es), snd (step st e) ++ snd (steps (fst (step st e)) es)).
Proof.
  simpl. destruct (step st e) as [st1 out1]. simpl.
  now destruct (steps st1 es) as [st2 out2].
Qed.

(** Once [onMessage] has removed itself no worker is created any more. *)
Lemma steps_not_listening (st : state) (es : list event) :
  listening st = false ->
  listening (fst (steps st es)) = false /\ spawns (snd (steps st es)) = 0.
Proof.
  revert st. induction es as [|e es IH]; intros st Hst; [now split|].
  rewrite steps_cons. cbn [fst snd].
  assert (Hstep : listening (fst (step st e)) = false /\ spawns (snd (step st e)) = 0).
  { destruct e as [data ports|data|data]; simpl.
    - rewrite Hst. now split.
    - destruct (portHandler st); now split.
    - destruct (workerHandler st); now split. }
  destruct Hstep as [Hl Hs]. destruct (IH _ Hl) as [Hl' Hs'].
  split; [exact Hl'|]. rewrite spawns_app. lia.
Qed.

(** X8. Whatever arrives, and in whatever order, the relay creates at
    most one worker. *)
Theorem relay_spawns_at_most_one (st : state) (es : list event) :
  spawns (snd (steps st es)) <= 1.
Proof.
  revert st. induction es as [|e es IH]; intros st; [simpl; unfold spawns; simpl; lia|].
  rewrite steps_cons. cbn [snd]. rewrite spawns_app.
  destruct e as [data ports|data|data].
  - cbn [step]. destruct (listening st && isInit (typeOf data)) eqn:Hinit.
    + assert (Hoff : listening (fst (match ports with
                        | [] => (State false (portHandler st) (workerHandler st),
                                 [NewWorker (getProp data "workerSource") (getProp data "name")])
                        | _ :: _ => (State false true true,
                                 [NewWorker (getProp data "workerSource") (getProp data "name")])
                        end)) = false) by now destruct ports.
      destruct (steps_not_listening _ es Hoff) as [_ Hs]. rewrite Hs.
      destruct ports; unfold spawns; simpl; lia.
    + specialize (IH st). cbn [fst snd]. unfold spawns at 1. simpl. lia.
  - specialize (IH st). simpl. destruct (portHandler st); cbn [fst snd];
      unfold spawns at 1; simpl; lia.
  - specialize (IH st). simpl. destruct (workerHandler st); cbn [fst snd];
      unfold spawns at 1; simpl; lia.
Qed.

Lemma steps_bridged (es : list event) :
  steps (State false true true) es
  = (State false true true, flat_map forwarded es).
Proof.
  induction es as [|e es IH]; [reflexivity|].
  rewrite steps_cons.
  destruct e; cbn [step listening portHandler workerHandler andb fst snd];
    now rewrite IH.
Qed.

(** X9. Started by the host's init message with a port, the relay creates
    the worker from the source and under the name the host sent, and from
    then on passes every message from the port to the worker and every
    message from the worker to the port, unchanged and in the order of
    arrival; further window messages do nothing. *)
Theorem relay_handshake_then_forwards
    (opts : option Host.CreateSandboxOptions) (workerSource : string)
    (port : nat) (ports : list nat) (es : list event) :
  steps initial (WindowMessage (initMessage opts workerSource) (port :: ports) :: es)
  = (State false true true,
     NewWorker (VStr workerSource) (VStr (sandboxName opts)) :: flat_map forwarded es).
Proof.
  assert (Hstep : step initial
                    (WindowMessage (initMessage opts workerSource) (port :: ports))
                  = (State false true true,
                     [NewWorker (VStr workerSource) (VStr (sandboxName opts))]))
    by reflexivity.
  rewrite steps_cons, Hstep. cbn [fst snd]. now rewrite steps_bridged.
Qed.

Lemma steps_dead (es : list event) :
  steps (State false false false) es = (State false false false, []).
Proof.
  induction es as [|e es IH]; [reflexivity|].
  rewrite steps_cons.
  destruct e; cbn [step listening portHandler workerHandler andb fst snd];
    now rewrite IH.
Qed.

(** X10. An init message that carries no port leaves the relay inert: the
    worker is created, but [port.onmessage] cannot be set, so nothing is
    ever forwarded, and a later init message is ignored. *)
Theorem relay_init_without_port (data : value) (es : list event) :
  isInit (typeOf data) = true ->
  steps initial (WindowMessage data [] :: es)
  = (State false false false,
     [NewWorker (getProp data "workerSource") (getProp data "name")]).
Proof.
  intros Hinit. rewrite steps_cons. cbn [step initial listening andb].
  rewrite Hinit. cbn [fst snd portHandler workerHandler]. now rewrite steps_dead.
Qed.

(** X11. Until an init message arrives the relay does nothing and keeps
    listening. *)
Theorem relay_idle_before_init (es : list event) :
  forallb (fun e => negb (isInitEvent e)) es = true ->
  steps initial es = (initial, []).
Proof.
  induction es as [|e es IH]; [reflexivity|].
  cbn [forallb]. intros [He Hes]%andb_prop.
  rewrite steps_cons. destruct e as [data ports|data|data]; cbn [step initial listening
    portHandler workerHandler andb fst snd].
  - simpl in He. apply negb_true_iff in He. rewrite He. cbn [fst snd].
    now rewrite (IH Hes).
  - now rewrite (IH Hes).
  - now rewrite (IH Hes).
Qed.

End RelayProperties.

(** ** The relay script inside the document *)

Section ScriptTag.
Import Utils Props.

Local Abbreviation closing := "</script".
Local Abbreviation escaped := "<\/script".

(** No character of [q] is [<]. *)
Local Abbreviation ltFree q := (forall c, occurs c q -> c <> lt).

Lemma prefix_cons_inv (a b : ascii) (p s : string) :
  String.prefix (String a p) (String b s) = true -> a = b /\ String.prefix p s = true.
Proof.
  cbn [String.prefix]. destruct (ascii_dec a b) as [->|Hne]; [now split|discriminate].
Qed.

Lemma prefix_cons_same (a : ascii) (p s : string) :
  String.prefix (String a p) (String a s) = String.prefix p s.
Proof.
  cbn [String.prefix]. destruct (ascii_dec a a); [reflexivity|congruence].
Qed.

Lemma prefix_nil (p : string) : String.prefix p "" = true -> p = "".
Proof. destruct p; [reflexivity|discriminate]. Qed.

(** A text without [<] that starts the replaced string started the
    original as well: such a text can only be made of copied characters. *)
Lemma replaced_prefix (s q : string) :
  ltFree q ->
  String.prefix q (replaceAll closing escaped s) = true ->
  String.prefix q s = true.
Proof.
  unfold replaceAll. revert q. induction s as [|c s IH]; intros q Hq Hpre.
  - simpl in Hpre. apply prefix_nil in Hpre. now subst q.
  - destruct q as [|d q]; [reflexivity|].
    cbn [replaceAll_from] in Hpre.
    destruct (String.prefix closing (String c s)) eqn:Hmatch.
    + cbn [String.length] in Hpre.
      change (escaped +:+ ?x) with (String lt ("\/script" +:+ x)) in Hpre.
      apply prefix_cons_inv in Hpre as [-> _].
      exfalso. apply (Hq lt); [left|]; reflexivity.
    + apply prefix_cons_inv in Hpre as [-> Hpre]. rewrite prefix_cons_same.
      apply IH; [|exact Hpre]. intros x Hx. apply Hq. now right.
Qed.

Lemma contains_cons (pat : string) (c : ascii) (s : string) :
  contains pat (String c s) = String.prefix pat (String c s) || contains pat s.
Proof. reflexivity. Qed.

Lemma contains_cons_other (c : ascii) (s : string) :
  c <> lt -> contains closing (String c s) = contains closing s.
Proof.
  intros Hc. rewrite contains_cons. cbn [String.prefix].
  destruct (ascii_dec "<" c) as [<-|_]; [now contradiction Hc|reflexivity].
Qed.

Lemma contains_escaped (s : string) :
  contains closing (escaped +:+ s) = contains closing s.
Proof.
  change (escaped +:+ s)
    with (String "<" (String "\" (String "/" (String "s" (String "c"
            (String "r" (String "i" (String "p" (String "t" s))))))))).
  rewrite contains_cons.
  replace (String.prefix closing (String "<" (String "\" _))) with false by reflexivity.
  cbn [orb]. now rewrite !contains_cons_other by discriminate.
Qed.

Lemma replaceAll_from_closing_free (s : string) (skip : nat) :
  contains closing (replaceAll_from closing escaped skip s) = false.
Proof.
  revert skip. induction s as [|c s IH]; intros skip; [reflexivity|].
  cbn [replaceAll_from]. destruct skip as [|k]; [|apply IH].
  destruct (String.prefix closing (String c s)) eqn:Hmatch.
  - now rewrite contains_escaped.
  - rewrite contains_cons, (IH 0), orb_false_r.
    destruct (String.prefix closing (String c (replaceAll_from closing escaped 0 s)))
      eqn:Hout; [|reflexivity].
    apply prefix_cons_inv in Hout as [<- Hout].
    apply (replaced_prefix s "/script") in Hout.
    + rewrite prefix_cons_same in Hmatch. congruence.
    + intros x Hx. unfold occurs in Hx. simpl in Hx.
      repeat (destruct Hx as [<-|Hx]; [discriminate|]). destruct Hx.
Qed.

(** X12. Whatever the relay script contains, the text put between the
    script tags of the iframe's document has no [</script] left in it. *)
Theorem safeIframeSource_has_no_closing_tag (iframeSource : string) :
  contains "</script" (replaceAll "</script" "<\/script" iframeSource) = false.
Proof. apply replaceAll_from_closing_free. Qed.

Lemma replaceAll_from_absent (pat rep s : string) :
  pat <> "" -> contains pat s = false -> replaceAll_from pat rep 0 s = s.
Proof.
  intros Hpat. induction s as [|c s IH]; intros Hs.
  - destruct pat; [congruence|reflexivity].
  - rewrite contains_cons in Hs. apply orb_false_elim in Hs as [Hpre Hrest].
    cbn [replaceAll_from]. rewrite Hpre. f_equal. now apply IH.
Qed.

(** X13. A relay script in which [</script] does not occur is put into
    the document as it is. *)
Theorem safeIframeSource_unchanged (iframeSource : string) :
  contains "</script" iframeSource = false ->
  replaceAll "</script" "<\/script" iframeSource = iframeSource.
Proof. apply replaceAll_from_absent. discriminate. Qed.

End ScriptTag.

(** ** More on escapeHtml *)

Section EscapeHtmlMore.
Import Utils.

Lemma append_nil_l (b : string) : "" +:+ b = b.
Proof. reflexivity. Qed.

Lemma entityOf_cases (c : ascii) :
  (c = amp /\ entityOf c = "&amp;")
  \/ (c = dquote /\ entityOf c = "&quot;")
  \/ (c = squote /\ entityOf c = "&#39;")
  \/ (c = lt /\ entityOf c = "&lt;")
  \/ (c = gt /\ entityOf c = "&gt;")
  \/ (~ In c (amp :: raw) /\ entityOf c = chr c).
Proof.
  unfold entityOf.
  destruct (Ascii.eqb_spec c amp); [now left|right].
  destruct (Ascii.eqb_spec c dquote); [now left|right].
  destruct (Ascii.eqb_spec c squote); [now left|right].
  destruct (Ascii.eqb_spec c lt); [now left|right].
  destruct (Ascii.eqb_spec c gt); [now left|right].
  split; [|reflexivity]. unfold raw. simpl. intuition congruence.
Qed.

Lemma length_append (a b : string) :
  String.length (a +:+ b) = String.length a + String.length b.
Proof.
  induction a as [|x a IH]; [reflexivity|].
  rewrite append_cons. simpl. now rewrite IH.
Qed.

Lemma entityOf_length (c : ascii) : 1 <= String.length (entityOf c).
Proof.
  destruct (entityOf_cases c) as [[_ ->]|[[_ ->]|[[_ ->]|[[_ ->]|[[_ ->]|[_ ->]]]]]];
    simpl; lia.
Qed.

(** Escaping never shortens. *)
Lemma escapeForAttribute_length (s : string) :
  String.length s <= String.length (escapeForAttribute s).
Proof.
  induction s as [|c s IH]; [reflexivity|].
  cbn [escapeForAttribute]. rewrite length_append.
  pose proof (entityOf_length c). simpl. lia.
Qed.

Ltac peel H :=
  unfold chr in H; repeat rewrite append_cons in H; rewrite append_nil_l in H.

Lemma escapeForAttribute_inj (s t : string) :
  escapeForAttribute s = escapeForAttribute t -> s = t.
Proof.
  revert t. induction s as [|c s IH]; intros [|d t] H.
  - reflexivity.
  - exfalso. apply (f_equal String.length) in H. cbn [escapeForAttribute] in H.
    rewrite length_append in H. pose proof (entityOf_length d). simpl in H. lia.
  - exfalso. apply (f_equal String.length) in H. cbn [escapeForAttribute] in H.
    rewrite length_append in H. pose proof (entityOf_length c). simpl in H. lia.
  - cbn [escapeForAttribute] in H.
    destruct (entityOf_cases c) as [[Hc Ec]|[[Hc Ec]|[[Hc Ec]|[[Hc Ec]|[[Hc Ec]|[Hc Ec]]]]]];
    destruct (entityOf_cases d) as [[Hd Ed]|[[Hd Ed]|[[Hd Ed]|[[Hd Ed]|[[Hd Ed]|[Hd Ed]]]]]];
      rewrite Ec, Ed in H; peel H; simplify_eq;
      try (exfalso; first [apply Hc|apply Hd]; left; reflexivity);
      f_equal; apply IH; assumption.
Qed.

(** X14. [escapeHtml] loses nothing: two different strings are never
    escaped to the same text. *)
Theorem escapeHtml_injective (s t : string) :
  escapeHtml s = escapeHtml t -> s = t.
Proof. rewrite !escapeHtml_refines. apply escapeForAttribute_inj. Qed.

(** X15. [escapeHtml] returns its argument unchanged exactly when none of
    the five characters occurs in it. *)
Theorem escapeHtml_unchanged_iff (s : string) :
  escapeHtml s = s <-> (forall c, occurs c s -> ~ In c (amp :: raw)).
Proof.
  rewrite escapeHtml_refines. induction s as [|c s IH].
  - split; [intros _ c []|reflexivity].
  - cbn [escapeForAttribute]. split.
    + intros H x Hx.
      destruct (entityOf_cases c) as [[Hc Ec]|[[Hc Ec]|[[Hc Ec]|[[Hc Ec]|[[Hc Ec]|[Hc Ec]]]]]];
        rewrite Ec in H; peel H; injection H; intros Htail;
        try (intros _; exfalso; apply (f_equal String.length) in Htail;
             pose proof (escapeForAttribute_length s); simpl in Htail; lia).
      destruct Hx as [<-|Hx]; [exact Hc|]. now apply IH.
    + intros H.
      destruct (entityOf_cases c) as [[Hc Ec]|[[Hc Ec]|[[Hc Ec]|[[Hc Ec]|[[Hc Ec]|[Hc Ec]]]]]];
        try (exfalso; apply (H c); [now left|]; subst c; unfold raw; simpl; tauto).
      rewrite Ec. unfold chr. rewrite append_cons, append_nil_l. f_equal.
      apply IH. intros x Hx. apply H. now right.
Qed.

End EscapeHtmlMore.

(** ** The shape of the two trees *)

Section SplitterShape.
Import Js Host Props.

Local Abbreviation loop acc ps :=
  (foldl (fun acc kv => visit extractMethods (fst kv) (snd kv) acc) acc ps).
Local Abbreviation callablesIn es := (flat_map (fun kv => callables (snd kv)) es).
Local Abbreviation tokensIn es := (flat_map (fun kv => tokens (snd kv)) es).

Lemma lookupProp_None (o : obj) (key : string) :
  lookupProp o key = None -> ~ In key (map fst o).
Proof.
  induction o as [|[k w] rest IH]; simpl; [tauto|].
  destruct (String.eqb_spec k key) as [->|Hne]; [discriminate|].
  intros H [Heq|Hin]; [congruence|now apply IH].
Qed.

Lemma isPlain_leaf (c : value) :
  isPlain c = true -> isFunction c = false /\ isObject c = false.
Proof. now destruct c. Qed.

(** *** Keys *)

Lemma visit_constants_other (key : string) (v : value) (acc : extracted) (k : string) :
  k <> key ->
  lookupProp (constants (visit extractMethods key v acc)) k
  = lookupProp (constants acc) k.
Proof.
  intros Hne. destruct v; unfold visit; simpl; try reflexivity;
    now apply lookupProp_setProp_ne.
Qed.

Lemma loop_constants_other (ps : obj) (acc : extracted) (k : string) :
  ~ In k (map fst ps) ->
  lookupProp (constants (loop acc ps)) k = lookupProp (constants acc) k.
Proof.
  revert acc. induction ps as [|[k0 w0] rest IH]; intros acc Hk; [reflexivity|].
  cbn [foldl fst snd]. simpl in Hk. rewrite IH by tauto.
  apply visit_constants_other. intros ->. tauto.
Qed.

Lemma loop_keys (ps : obj) (acc : extracted) (k : string) :
  (In k (map fst (constants (loop acc ps))) ->
   In k (map fst (constants acc)) \/ In k (map fst ps))
  /\ (In k (map fst (methods (loop acc ps))) ->
      In k (map fst (methods acc)) \/ In k (map fst ps)).
Proof.
  revert acc. induction ps as [|[k0 w0] rest IH]; intros acc; [simpl; tauto|].
  cbn [foldl fst snd map]. destruct (IH (visit extractMethods k0 w0 acc)) as [Hc Hm].
  destruct (visit_keys k0 w0 acc k) as [Hc' Hm']. simpl. split; intros H.
  - destruct (Hc H) as [H1|H1]; [destruct (Hc' H1); auto|auto].
  - destruct (Hm H) as [H1|H1]; [destruct (Hm' H1); auto|auto].
Qed.

(** Both trees name only keys of the source. *)
Lemma extractMethods_keys (v : value) (tbl : list value) (k : string) :
  (In k (map fst (constants (extractMethods v tbl))) -> In k (map fst (entries v)))
  /\ (In k (map fst (methods (extractMethods v tbl))) -> In k (map fst (entries v))).
Proof.
  rewrite extractMethods_entries.
  destruct (loop_keys (entries v) (Extracted [] [] tbl) k) as [Hc Hm].
  split; intros H; [destruct (Hc H) as [[]|]|destruct (Hm H) as [[]|]]; assumption.
Qed.

Lemma constants_NoDup (v : value) (tbl : list value) :
  NoDup (map fst (constants (extractMethods v tbl))).
Proof.
  rewrite extractMethods_entries.
  assert (Hacc : NoDup (map fst (constants (Extracted [] [] tbl)))) by constructor.
  revert Hacc. generalize (Extracted [] [] tbl).
  induction (entries v) as [|[k w] rest IH]; intros acc Hacc; [exact Hacc|].
  cbn [foldl fst snd]. apply IH.
  destruct w; unfold visit; simpl; try exact Hacc; now apply setProp_NoDup.
Qed.

(** *** Constants stay where they were *)

(** A plain value found in [v] along a path is found in the constants
    tree along the same path. *)
Local Abbreviation kept v :=
  (forall tbl, wellFormed v = true ->
   forall path c, path <> [] -> ~ In "__proto__" path ->
   isPlain c = true -> getPath v path = c ->
   getPath (VObj (constants (extractMethods v tbl))) path = c).

Lemma visit_constants_at (key : string) (v : value) (acc : extracted) :
  key <> "__proto__" ->
  lookupProp (constants (visit extractMethods key v acc)) key
  = if isFunction v then lookupProp (constants acc) key
    else Some (if isObject v
               then VObj (constants (extractMethods v (methodsById acc)))
               else v).
Proof.
  intros Hkey.
  destruct v; unfold visit; simpl; try reflexivity; now apply lookupProp_setProp_eq.
Qed.

Lemma loop_kept (ps : obj) :
  (forall k w, In (k, w) ps -> kept w) ->
  (forall k w, In (k, w) ps -> wellFormed w = true) ->
  NoDup (map fst ps) ->
  forall acc,
    (forall k, In k (map fst (constants acc)) -> ~ In k (map fst ps)) ->
    forall k w, In (k, w) ps -> k <> "__proto__" ->
    forall rest c, ~ In "__proto__" rest -> isPlain c = true -> getPath w rest = c ->
    getPath (default VUndef (lookupProp (constants (loop acc ps)) k)) rest = c.
Proof.
  induction ps as [|[k0 w0] ps' IH];
    intros Hkept Hwf Hnd acc Hfresh k w Hin Hkey rest c Hrest Hc Hpath; [destruct Hin|].
  simpl in Hnd. apply NoDup_cons in Hnd as [Hk0 Hnd]. rewrite list_elem_of_In in Hk0.
  cbn [foldl fst snd]. destruct Hin as [[= -> ->]|Hin].
  - rewrite loop_constants_other by exact Hk0.
    rewrite visit_constants_at by exact Hkey.
    destruct (isPlain_leaf c Hc) as [Hcf Hco].
    destruct (isFunction w) eqn:Hfun; [|destruct (isObject w) eqn:Hobj].
    + rewrite lookupProp_fresh by (intros H; apply (Hfresh k H); now left).
      cbn [default]. rewrite getPath_undefined.
      destruct rest as [|k' rest']; [cbn in Hpath; congruence|].
      rewrite <- Hpath. symmetry. apply getPath_leaf; [|discriminate].
      now apply isFunction_not_object.
    + cbn [default]. destruct rest as [|k' rest']; [cbn in Hpath; congruence|].
      apply (Hkept k w (or_introl eq_refl) _ (Hwf k w (or_introl eq_refl)));
        [discriminate|exact Hrest|exact Hc|exact Hpath].
    + exact Hpath.
  - assert (Hfresh' : forall k', In k' (map fst (constants (visit extractMethods k0 w0 acc)))
                        -> ~ In k' (map fst ps')).
    { intros k' Hk' Hlater.
      destruct (proj1 (visit_keys k0 w0 acc k') Hk') as [Hold| ->].
      - apply (Hfresh k' Hold). now right.
      - exact (Hk0 Hlater). }
    exact (IH (fun k' w' H => Hkept k' w' (or_intror H))
              (fun k' w' H => Hwf k' w' (or_intror H)) Hnd
              (visit extractMethods k0 w0 acc) Hfresh' k w Hin Hkey rest c Hrest Hc Hpath).
Qed.

Lemma extractMethods_kept (v : value) : kept v.
Proof.
  induction v as [v IH] using value_entries_ind.
  intros tbl Hwf path c Hpath Hfree Hc Hget.
  destruct (wellFormed_entries v Hwf) as [Hnd Hsub].
  destruct path as [|k rest]; [congruence|].
  assert (Hkey : k <> "__proto__") by (intros ->; apply Hfree; now left).
  assert (Hrest : ~ In "__proto__" rest) by (intros H; apply Hfree; now right).
  rewrite getPath_cons in Hget |- *. unfold getProp in Hget |- *.
  cbn [entries]. rewrite extractMethods_entries.
  destruct (lookupProp (entries v) k) as [w|] eqn:Hk.
  - apply lookupProp_In in Hk.
    exact (loop_kept (entries v) IH Hsub Hnd (Extracted [] [] tbl)
             ltac:(intros ? []) k w Hk Hkey rest c Hrest Hc Hget).
  - rewrite loop_constants_other by now apply lookupProp_None.
    exact Hget.
Qed.

(** X1. The splitter keeps every primitive other than [undefined] and
    every [null] of a well-formed graph in the constants tree, at the
    path it had in the graph, as long as no name on the path is
    [__proto__]; this holds below arrays too, which become objects keyed
    by the indices. *)
Theorem constants_keep_plain_values
    (globals : obj) (tbl : list value) (path : list string) :
  wellFormed (VObj globals) = true ->
  path <> [] ->
  ~ In "__proto__" path ->
  isPlain (getPath (VObj globals) path) = true ->
  getPath (VObj globals) path <> VUndef ->
  getPath (VObj (constants (extractMethods (VObj globals) tbl))) path
  = getPath (VObj globals) path.
Proof.
  intros Hwf Hpath Hfree Hc _.
  exact (extractMethods_kept (VObj globals) tbl Hwf path _ Hpath Hfree Hc eq_refl).
Qed.

End SplitterShape.

(** ** Which keys the methods tree names *)

Section MethodsShape.
Import Js Host Props.

Local Abbreviation loop acc ps :=
  (foldl (fun acc kv => visit extractMethods (fst kv) (snd kv) acc) acc ps).
Local Abbreviation callablesIn es := (flat_map (fun kv => callables (snd kv)) es).
Local Abbreviation tokensIn es := (flat_map (fun kv => tokens (snd kv)) es).

(** Every entry of a methods tree holds a token, itself or below. *)
Lemma methods_tokened (v : value) :
  forall tbl k m, In (k, m) (methods (extractMethods v tbl)) -> tokens m <> [].
Proof.
  induction v as [v IH] using value_entries_ind. intros tbl.
  rewrite extractMethods_entries.
  assert (Hacc : forall k m, In (k, m) (methods (Extracted [] [] tbl)) -> tokens m <> [])
    by (intros k m []).
  revert Hacc. generalize (Extracted [] [] tbl).
  induction (entries v) as [|[k0 w] rest IHrest]; intros acc Hacc; [exact Hacc|].
  cbn [foldl fst snd]. apply IHrest.
  - intros k' w' H. apply (IH k' w'). now right.
  - assert (Hw := IH k0 w (or_introl eq_refl) (methodsById acc)).
    intros k m Hin. rewrite visit_cases in Hin.
    destruct (isFunction w); [|destruct (isObject w)]; cbn [methods] in Hin.
    + apply setProp_In in Hin as [Hin|[_ ->]]; [exact (Hacc k m Hin)|discriminate].
    + destruct (methods (extractMethods w (methodsById acc))) as [|[k1 m1] ms] eqn:Hm;
        cbn [hasKeys] in Hin; [exact (Hacc k m Hin)|].
      apply setProp_In in Hin as [Hin|[_ ->]]; [exact (Hacc k m Hin)|].
      rewrite tokens_object. cbn [flat_map snd].
      specialize (Hw k1 m1 (or_introl eq_refl)).
      destruct (tokens m1); [congruence|discriminate].
    + exact (Hacc k m Hin).
Qed.

(** The methods tree of a graph that holds no callable is empty. *)
Lemma methods_empty (v : value) (tbl : list value) :
  wellFormed v = true ->
  callablesIn (entries v) = [] -> methods (extractMethods v tbl) = [].
Proof.
  intros Hwf H. destruct (extractMethods_splits v tbl Hwf) as (_ & Hsub & _).
  rewrite H in Hsub. simpl in Hsub. apply sublist_nil_r in Hsub.
  destruct (methods (extractMethods v tbl)) as [|[k m] ms] eqn:Hm; [reflexivity|].
  exfalso. apply (methods_tokened v tbl k m); [rewrite Hm; now left|].
  cbn [flat_map snd] in Hsub. now apply app_eq_nil in Hsub as [? _].
Qed.

(** Where no property is named [__proto__], an empty methods tree means
    that the graph holds no callable. *)
Lemma methods_empty_inv (v : value) (tbl : list value) :
  wellFormed v = true -> protoFree v = true ->
  methods (extractMethods v tbl) = [] -> callablesIn (entries v) = [].
Proof.
  intros Hwf Hfree H. destruct (extractMethods_splits v tbl Hwf) as (_ & _ & Htok & _).
  specialize (Htok Hfree). rewrite H in Htok. simpl in Htok.
  destruct (callablesIn (entries v)); [reflexivity|discriminate Htok].
Qed.

Lemma visit_methods_at (key : string) (v : value) (acc : extracted) :
  key <> "__proto__" ->
  ~ In key (map fst (methods acc)) ->
  lookupProp (methods (visit extractMethods key v acc)) key
  = if isFunction v then Some (VNum (Z.of_nat (length (methodsById acc))))
    else if isObject v
         then if hasKeys (methods (extractMethods v (methodsById acc)))
              then Some (VObj (methods (extractMethods v (methodsById acc))))
              else None
         else None.
Proof.
  intros Hkey Hfresh. pose proof (lookupProp_fresh _ _ Hfresh) as Hnone.
  rewrite visit_cases.
  destruct (isFunction v); [|destruct (isObject v)]; cbn [methods].
  - now apply lookupProp_setProp_eq.
  - destruct (hasKeys _); [now apply lookupProp_setProp_eq|exact Hnone].
  - exact Hnone.
Qed.

Lemma loop_present (ps : obj) :
  (forall k w, In (k, w) ps -> wellFormed w = true) ->
  NoDup (map fst ps) ->
  forall acc,
    (forall k, In k (map fst (methods acc)) -> ~ In k (map fst ps)) ->
    forall k w, In (k, w) ps -> k <> "__proto__" ->
    (callables w = [] -> lookupProp (methods (loop acc ps)) k = None)
    /\ (protoFree w = true ->
        lookupProp (methods (loop acc ps)) k = None -> callables w = []).
Proof.
  induction ps as [|[k0 w0] ps' IH];
    intros Hwf Hnd acc Hfresh k w Hin Hkey; [destruct Hin|].
  simpl in Hnd. apply NoDup_cons in Hnd as [Hk0 Hnd]. rewrite list_elem_of_In in Hk0.
  cbn [foldl fst snd]. destruct Hin as [[= -> ->]|Hin].
  - rewrite loop_lookup_other by exact Hk0.
    rewrite visit_methods_at by
      (first [exact Hkey|intros H; apply (Hfresh k H); now left]).
    pose proof (Hwf k w (or_introl eq_refl)) as Hw.
    destruct (isFunction w) eqn:Hfun; [|destruct (isObject w) eqn:Hobj].
    + split; [|discriminate]. destruct w; try discriminate Hfun; discriminate.
    + rewrite (callables_object w Hobj). split.
      * intros H. now rewrite (methods_empty w (methodsById acc) Hw H).
      * intros Hfree H. apply (methods_empty_inv w (methodsById acc) Hw Hfree).
        destruct (methods (extractMethods w (methodsById acc))); [reflexivity|].
        discriminate H.
    + split; [reflexivity|]. intros _ _. destruct w; try discriminate; reflexivity.
  - assert (Hfresh' : forall k', In k' (map fst (methods (visit extractMethods k0 w0 acc)))
                        -> ~ In k' (map fst ps')).
    { intros k' Hk' Hlater.
      destruct (proj2 (visit_keys k0 w0 acc k') Hk') as [Hold| ->].
      - apply (Hfresh k' Hold). now right.
      - exact (Hk0 Hlater). }
    exact (IH (fun k' w' H => Hwf k' w' (or_intror H)) Hnd
              (visit extractMethods k0 w0 acc) Hfresh' k w Hin Hkey).
Qed.

Lemma methods_key_absent
    (globals : obj) (tbl : list value) (key : string) (w : value) :
  wellFormed (VObj globals) = true ->
  lookupProp globals key = Some w ->
  key <> "__proto__" ->
  (callables w = [] ->
   lookupProp (methods (extractMethods (VObj globals) tbl)) key = None)
  /\ (protoFree w = true ->
      lookupProp (methods (extractMethods (VObj globals) tbl)) key = None ->
      callables w = []).
Proof.
  intros Hwf Hkey Hne. destruct (wellFormed_entries _ Hwf) as [Hnd Hsub].
  rewrite extractMethods_entries.
  exact (loop_present globals Hsub Hnd (Extracted [] [] tbl)
           ltac:(intros ? []) key w (lookupProp_In _ _ _ Hkey) Hne).
Qed.

(** X2. Take a key of a well-formed graph other than [__proto__], with no
    property named [__proto__] below it.  The methods tree names the key
    exactly when a callable sits at that key or below it: a subtree of
    pure data gets no entry. *)
Theorem methods_names_keys_with_callables
    (globals : obj) (tbl : list value) (key : string) (w : value) :
  wellFormed (VObj globals) = true ->
  lookupProp globals key = Some w ->
  key <> "__proto__" ->
  protoFree w = true ->
  (lookupProp (methods (extractMethods (VObj globals) tbl)) key = None
   <-> callables w = []).
Proof.
  intros Hwf Hkey Hne Hfree.
  destruct (methods_key_absent globals tbl key w Hwf Hkey Hne) as [Hnone Hsome].
  split; [exact (Hsome Hfree)|exact Hnone].
Qed.

End MethodsShape.

(** ** Installing the globals *)

Section Install.
Import Js Host Worker Props.

Local Abbreviation merge dest ps :=
  (foldl (fun dest kv => inject injectMethods (fst kv) (snd kv) dest) dest ps).

Lemma inject_keys (key : string) (v : value) (dest : obj) (k : string) :
  In k (map fst (inject injectMethods key v dest)) ->
  In k (map fst dest) \/ k = key.
Proof. destruct v; unfold inject; simpl; auto; apply setProp_keys. Qed.

Lemma inject_NoDup (key : string) (v : value) (dest : obj) :
  NoDup (map fst dest) -> NoDup (map fst (inject injectMethods key v dest)).
Proof.
  intros H. destruct v; unfold inject; simpl; try exact H; now apply setProp_NoDup.
Qed.

(** The merge names only keys of its two arguments, and no key twice. *)
Lemma injectMethods_keys (m : value) (dest : obj) (k : string) :
  In k (map fst (injectMethods m dest)) ->
  In k (map fst dest) \/ In k (map fst (entries m)).
Proof.
  rewrite injectMethods_entries. revert dest.
  induction (entries m) as [|[k0 w0] rest IH]; intros dest H; [now left|].
  cbn [foldl fst snd] in H. simpl. destruct (IH _ H) as [H1|H1]; [|auto].
  destruct (inject_keys _ _ _ _ H1); auto.
Qed.

Lemma injectMethods_NoDup (m : value) (dest : obj) :
  NoDup (map fst dest) -> NoDup (map fst (injectMethods m dest)).
Proof.
  rewrite injectMethods_entries. revert dest.
  induction (entries m) as [|[k0 w0] rest IH]; intros dest H; [exact H|].
  cbn [foldl fst snd]. apply IH. now apply inject_NoDup.
Qed.

(** A key the methods tree does not name keeps what the constants tree
    had for it. *)
Lemma injectMethods_untouched (ms dest : obj) (k : string) :
  lookupProp ms k = None ->
  lookupProp (injectMethods (VObj ms) dest) k = lookupProp dest k.
Proof.
  intros H. rewrite injectMethods_entries.
  apply merge_lookup_other. now apply lookupProp_None.
Qed.

(** *** Assignments to the global object *)

Lemma assign_frame (g g' : chain) (key k : string) (v : value) :
  assign g key v = Some g' -> k <> key -> findProperty g' k = findProperty g k.
Proof.
  intros Hassign Hne. destruct g as [|self protos]; [discriminate|].
  unfold assign in Hassign.
  assert (Hins : forall p, findProperty (<[key := p]> self :: protos) k
                           = findProperty (self :: protos) k)
    by (intros p; cbn [findProperty]; now rewrite lookup_insert_ne).
  destruct (findProperty (self :: protos) key) as [[v0 [|] e c|gt [st|] e c]|];
    try discriminate Hassign.
  - destruct (self !! key) as [[v1 w1 e1 c1|? ? ? ?]|]; try discriminate Hassign;
      injection Hassign as <-; apply Hins.
  - now injection Hassign as <-.
  - injection Hassign as <-. apply Hins.
Qed.

Lemma assign_accepted (g : chain) (key : string) (v : value) :
  g <> [] -> assignable g key = true ->
  exists g' e c,
    assign g key v = Some g'
    /\ g' <> []
    /\ findProperty g' key = Some (Data v true e c).
Proof.
  intros Hg Hok. destruct g as [|self protos]; [congruence|].
  unfold assignable in Hok. unfold assign.
  assert (Hins : forall p, findProperty (<[key := p]> self :: protos) key = Some p)
    by (intros p; cbn [findProperty]; now rewrite lookup_insert_eq).
  destruct (findProperty (self :: protos) key) as [[v0 w0 e c|gt st e c]|] eqn:Hfind;
    try discriminate Hok.
  - subst w0. cbn [findProperty] in Hfind.
    destruct (self !! key) as [[v1 w1 e1 c1|gt1 st1 e1 c1]|] eqn:Hself.
    + exists (<[key := Data v true e1 c1]> self :: protos), e1, c1.
      repeat split; [discriminate|apply Hins].
    + discriminate Hfind.
    + exists (<[key := Data v true true true]> self :: protos), true, true.
      repeat split; [discriminate|apply Hins].
  - exists (<[key := Data v true true true]> self :: protos), true, true.
    repeat split; [discriminate|apply Hins].
Qed.

Lemma assignAll_frame (props : obj) :
  forall g g' k,
    assignAll g props = Some g' -> ~ In k (map fst props) ->
    findProperty g' k = findProperty g k.
Proof.
  induction props as [|[k0 v0] rest IH]; intros g g' k Hall Hk.
  - now injection Hall as <-.
  - cbn [assignAll] in Hall. destruct (assign g k0 v0) as [g1|] eqn:H1; [|discriminate].
    cbn in Hall. simpl in Hk. rewrite (IH g1 g' k Hall) by tauto.
    apply (assign_frame _ _ _ _ _ H1). intros ->. tauto.
Qed.

Lemma assignable_frame (g g' : chain) (key k : string) (v : value) :
  assign g key v = Some g' -> k <> key -> assignable g' k = assignable g k.
Proof.
  intros H Hne. unfold assignable. now rewrite (assign_frame _ _ _ _ _ H Hne).
Qed.

Lemma assignAll_accepted (props : obj) :
  NoDup (map fst props) ->
  forall g,
    g <> [] ->
    (forall k, In k (map fst props) -> assignable g k = true) ->
    exists g',
      assignAll g props = Some g'
      /\ (forall k v, In (k, v) props ->
            exists e c, findProperty g' k = Some (Data v true e c)).
Proof.
  induction props as [|[k0 v0] rest IH]; intros Hnd g Hg Hok.
  - exists g. split; [reflexivity|intros k v []].
  - simpl in Hnd. apply NoDup_cons in Hnd as [Hk0 Hnd]. rewrite list_elem_of_In in Hk0.
    destruct (assign_accepted g k0 v0 Hg (Hok k0 (or_introl eq_refl)))
      as (g1 & e & c & H1 & Hg1 & Hfind).
    destruct (IH Hnd g1 Hg1) as (g' & Hall & Hprops).
    { intros k Hk. rewrite (assignable_frame _ _ _ _ _ H1).
      - apply Hok. now right.
      - intros ->. exact (Hk0 Hk). }
    exists g'. split; [cbn [assignAll]; rewrite H1; exact Hall|].
    intros k v [[= -> ->]|Hin]; [|exact (Hprops k v Hin)].
    exists e, c. now rewrite (assignAll_frame rest g1 g' k Hall Hk0).
Qed.

(** Reading a path in guest code goes as [getPath] does, as long as the
    value read is not [undefined]. *)
Lemma member_getPath (path : list string) :
  forall v, getPath v path <> VUndef ->
  foldl member (Normal v) path = Normal (getPath v path).
Proof.
  induction path as [|k rest IH]; intros v Hv; [reflexivity|].
  rewrite getPath_cons in Hv |- *. cbn [foldl].
  assert (Hmember : member (Normal v) k = Normal (getProp v k)).
  { destruct v; try reflexivity; exfalso; apply Hv; apply getPath_undefined. }
  rewrite Hmember. now apply IH.
Qed.

End Install.

(** ** What guest code sees *)

Section GuestView.
Import Js Host Worker Props.

Lemma isPlain_cloneable (c : value) : isPlain c = true -> cloneable c = true.
Proof. now destruct c. Qed.

Lemma member_throw (e : error) (path : list string) :
  foldl member (Throw e) path = Throw e.
Proof. induction path as [|k rest IH]; [reflexivity|exact IH]. Qed.

(** X3. A primitive or [null] (other than [undefined]) that sits under a
    top-level key with no callable at or below it reaches the guest.
    Take globals without a key [globalThis], a key that guest code reads
    as a reference to a global, and a path of identifier names, none of
    them [__proto__]: on a global scope (listed without its
    self-reference [globalThis]) that accepts the assignments,
    [setGlobals] succeeds and [return key.k1. ... .kn] yields the value
    the graph has there. *)
Theorem plain_values_reach_guest
    (globals : obj) (g : chain) (key : string) (rest : list string) :
  wellFormed (VObj globals) = true ->
  g <> [] ->
  (forall k, In k (map fst globals) -> assignable g k = true) ->
  findProperty g "globalThis" = None ->
  ~ In "globalThis" (map fst globals) ->
  isReference key = true ->
  forallb isIdentifierName rest = true ->
  ~ In "__proto__" (key :: rest) ->
  callables (getProp (VObj globals) key) = [] ->
  isPlain (getPath (VObj globals) (key :: rest)) = true ->
  getPath (VObj globals) (key :: rest) <> VUndef ->
  exists g',
    setGlobals (constants (extractMethods (VObj globals) []))
               (methods (extractMethods (VObj globals) [])) g = Some g'
    /\ Worker.run g' key rest = Normal (getPath (VObj globals) (key :: rest)).
Proof.
  intros Hwf Hg Hok _ _ _ _ Hfree Hcall Hplain Hdef.
  assert (Hne : key <> "__proto__") by (intros ->; apply Hfree; now left).
  set (r := extractMethods (VObj globals) []).
  set (c := getPath (VObj globals) (key :: rest)) in *.
  (* the key is a key of the graph *)
  destruct (lookupProp globals key) as [w|] eqn:Hkey.
  2: { exfalso. apply Hdef. unfold c. rewrite getPath_cons. unfold getProp.
       cbn [entries]. rewrite Hkey. apply getPath_undefined. }
  assert (Hw : getProp (VObj globals) key = w)
    by (unfold getProp; cbn [entries]; now rewrite Hkey).
  rewrite Hw in Hcall.
  (* the constants tree has the value, the methods tree does not name the key *)
  assert (Hkept : getPath (VObj (constants r)) (key :: rest) = c)
    by (apply (extractMethods_kept (VObj globals) [] Hwf);
        [discriminate|exact Hfree|exact Hplain|reflexivity]).
  assert (Hnone : lookupProp (methods r) key = None)
    by (apply (methods_key_absent globals [] key w Hwf Hkey Hne); exact Hcall).
  rewrite getPath_cons in Hkept. unfold getProp in Hkept. cbn [entries] in Hkept.
  destruct (lookupProp (constants r) key) as [cv|] eqn:Hcv.
  2: { exfalso. apply Hdef. rewrite <- Hkept. apply getPath_undefined. }
  change (getPath cv rest = c) in Hkept.
  assert (Hmerged : In (key, cv) (injectMethods (VObj (methods r)) (constants r))).
  { apply lookupProp_In. now rewrite injectMethods_untouched. }
  (* the assignments are accepted *)
  destruct (assignAll_accepted (injectMethods (VObj (methods r)) (constants r))
              (injectMethods_NoDup _ _ (constants_NoDup _ _)) g Hg)
    as (g' & Hall & Hprops).
  { intros k Hk. apply Hok. apply injectMethods_keys in Hk as [Hk|Hk].
    - exact (proj1 (extractMethods_keys (VObj globals) [] k) Hk).
    - exact (proj2 (extractMethods_keys (VObj globals) [] k) Hk). }
  exists g'. split; [exact Hall|].
  destruct (Hprops key cv Hmerged) as (e & cf & Hfind).
  unfold Worker.run, resolve. rewrite Hfind.
  rewrite member_getPath by (rewrite Hkept; exact Hdef).
  rewrite Hkept. now rewrite isPlain_cloneable.
Qed.

(** X4. [setGlobals] touches the global scope only at the top-level keys
    of the globals.  On a global scope listed without its self-reference
    [globalThis], and for globals without a key [globalThis], every other
    name keeps the property it had on the scope's chain, or stays absent
    from it; so a name other than [globalThis] that was on no object of
    the chain and that guest code reads as a reference to a global is a
    ReferenceError after the install as well. *)
Theorem unexposed_names_untouched
    (globals : obj) (g g' : chain) (id : string) (path : list string) :
  setGlobals (constants (extractMethods (VObj globals) []))
             (methods (extractMethods (VObj globals) [])) g = Some g' ->
  findProperty g "globalThis" = None ->
  ~ In "globalThis" (map fst globals) ->
  ~ In id (map fst globals) ->
  findProperty g' id = findProperty g id
  /\ (findProperty g id = None ->
      id <> "globalThis" ->
      isReference id = true ->
      forallb isIdentifierName path = true ->
      Worker.run g' id path = Throw ReferenceError).
Proof.
  intros Hset _ _ Hid.
  assert (Hfind : findProperty g' id = findProperty g id).
  { apply (assignAll_frame _ _ _ _ Hset). intros Hk. apply Hid.
    apply injectMethods_keys in Hk as [Hk|Hk].
    - exact (proj1 (extractMethods_keys (VObj globals) [] id) Hk).
    - exact (proj2 (extractMethods_keys (VObj globals) [] id) Hk). }
  split; [exact Hfind|]. intros Hnone _ _ _.
  unfold Worker.run, resolve. rewrite Hfind, Hnone.
  now rewrite member_throw.
Qed.

(** X7. A function in a well-formed graph reaches the guest as a proxy.
    Take globals without a key [globalThis], a key that guest code reads
    as a reference to a global, and a path of identifier names, none of
    them [__proto__], that leads to a function: on a global scope (listed
    without its self-reference [globalThis]) that accepts the
    assignments, [setGlobals] succeeds, the expression
    [key.k1. ... .kn] evaluates to a proxy, and the token the proxy sends
    makes the host run that function with the arguments given. *)
Theorem functions_reach_guest
    (globals : obj) (g : chain) (key : string) (rest : list string)
    (f : nat) (params : list value) :
  wellFormed (VObj globals) = true ->
  g <> [] ->
  (forall k, In k (map fst globals) -> assignable g k = true) ->
  findProperty g "globalThis" = None ->
  ~ In "globalThis" (map fst globals) ->
  isReference key = true ->
  forallb isIdentifierName rest = true ->
  ~ In "__proto__" (key :: rest) ->
  getPath (VObj globals) (key :: rest) = VFun f ->
  exists g' i,
    setGlobals (constants (extractMethods (VObj globals) []))
               (methods (extractMethods (VObj globals) [])) g = Some g'
    /\ foldl member (resolve g' key) rest = Normal (VProxy (Z.of_nat i))
    /\ call (VProxy (Z.of_nat i)) params = Request (Z.of_nat i) params
    /\ onMethod (methodsById (extractMethods (VObj globals) []))
         (VNum (Z.of_nat i)) params = Invoke f params.
Proof.
  intros Hwf Hg Hok _ _ _ _ Hfree Hget.
  set (r := extractMethods (VObj globals) []).
  destruct (extractMethods_located (VObj globals) [] Hwf (key :: rest) (VFun f)
              eq_refl ltac:(discriminate) Hfree Hget) as (i & Hi & Hlook).
  fold r in Hi, Hlook.
  pose proof (injectMethods_proxied (VObj (methods r)) (constants r)
                (methods_wellFormed (VObj globals) []) (key :: rest) (Z.of_nat i)
                ltac:(discriminate) Hfree Hi) as Hproxy.
  rewrite getPath_cons in Hproxy. unfold getProp in Hproxy. cbn [entries] in Hproxy.
  destruct (lookupProp (injectMethods (VObj (methods r)) (constants r)) key)
    as [mv|] eqn:Hmv.
  2: { cbn in Hproxy. rewrite getPath_undefined in Hproxy. discriminate Hproxy. }
  change (getPath mv rest = VProxy (Z.of_nat i)) in Hproxy.
  destruct (assignAll_accepted (injectMethods (VObj (methods r)) (constants r))
              (injectMethods_NoDup _ _ (constants_NoDup _ _)) g Hg)
    as (g' & Hall & Hprops).
  { intros k Hk. apply Hok. apply injectMethods_keys in Hk as [Hk|Hk].
    - exact (proj1 (extractMethods_keys (VObj globals) [] k) Hk).
    - exact (proj2 (extractMethods_keys (VObj globals) [] k) Hk). }
  exists g', i. split; [exact Hall|].
  destruct (Hprops key mv (lookupProp_In _ _ _ Hmv)) as (e & cf & Hfind).
  unfold resolve. rewrite Hfind.
  rewrite member_getPath by (rewrite Hproxy; discriminate).
  rewrite Hproxy. split; [reflexivity|]. split; [reflexivity|].
  now apply onMethod_lookup.
Qed.

Lemma blockedConfigurable_spec (g : chain) :
  forallb blockedConfigurable g = true ->
  forall o prop p, o ∈ g -> prop ∈ blocked ->
    o !! prop = Some p -> isConfigurable p = true.
Proof.
  intros Hc o prop p Ho Hprop Hp.
  rewrite forallb_forall in Hc. apply list_elem_of_In in Ho.
  specialize (Hc o Ho). unfold blockedConfigurable in Hc.
  rewrite forallb_forall in Hc. apply list_elem_of_In in Hprop.
  specialize (Hc prop Hprop). now rewrite Hp in Hc.
Qed.

Lemma findProperty_scrubbed (props : list string) (prop : string) (g : chain) :
  In prop props ->
  findProperty (map (fun o => foldl (fun o prop => scrubObject prop o) o props) g) prop
  = inertOf <$> findProperty g prop.
Proof.
  intros Hprop. induction g as [|o rest IH]; [reflexivity|].
  cbn [map findProperty]. rewrite scrubObjects_lookup.
  rewrite bool_decide_eq_true_2 by now apply list_elem_of_In.
  destruct (o !! prop); [reflexivity|exact IH].
Qed.

(** X5. After the scrub, guest code that names a blocked global gets
    [undefined] when some object of the chain owned it, and reading a
    property of it throws a TypeError; a blocked name no object owned is
    still a ReferenceError. *)
Theorem blocked_names_read_undefined (g : chain) (prop : string) :
  forallb blockedConfigurable g = true ->
  In prop blocked ->
  exists g',
    scrub g = Some g'
    /\ match findProperty g prop with
       | Some _ =>
           Worker.run g' prop [] = Normal VUndef
           /\ (forall key more, Worker.run g' prop (key :: more) = Throw TypeError)
       | None => forall path, Worker.run g' prop path = Throw ReferenceError
       end.
Proof.
  intros Hc Hprop. eexists. split.
  - apply scrubAll_map. now apply blockedConfigurable_spec.
  - unfold Worker.run, resolve. rewrite (findProperty_scrubbed blocked prop g Hprop).
    destruct (findProperty g prop) as [p|]; cbn [fmap option_fmap option_map].
    + destruct p; cbn [inertOf]; split; try reflexivity;
        intros key more; cbn [foldl member]; now rewrite member_throw.
    + intros path. now rewrite member_throw.
Qed.

Lemma scrubProp_refused (prop : string) (g : chain) (o : object) (p : property) :
  In o g -> o !! prop = Some p -> redefine p = None -> scrubProp prop g = None.
Proof.
  intros Ho Hp Hr. induction g as [|o0 rest IH]; [destruct Ho|].
  cbn [scrubProp]. destruct Ho as [->|Ho].
  - unfold hasOwn, defineProperty. rewrite Hp, Hr. reflexivity.
  - rewrite (IH Ho).
    destruct (if hasOwn o0 prop then defineProperty o0 prop else Some o0); reflexivity.
Qed.

Lemma scrubProp_frame (h : string) (g g' : chain) (o : object) (prop : string) :
  scrubProp h g = Some g' -> In o g -> prop <> h ->
  exists o', In o' g' /\ o' !! prop = o !! prop.
Proof.
  revert g'. induction g as [|o0 rest IH]; intros g' Hs Ho Hne; [destruct Ho|].
  cbn [scrubProp] in Hs.
  destruct (if hasOwn o0 h then defineProperty o0 h else Some o0) as [o0'|] eqn:H0;
    [|discriminate].
  destruct (scrubProp h rest) as [rest'|]; [|discriminate].
  cbn in Hs. injection Hs as <-. destruct Ho as [->|Ho].
  - exists o0'. split; [now left|].
    unfold hasOwn, defineProperty in H0.
    destruct (o !! h) as [q|]; [|now injection H0 as <-].
    destruct (redefine q) as [q'|]; [|discriminate].
    cbn in H0. injection H0 as <-. now rewrite lookup_insert_ne.
  - destruct (IH rest' eq_refl Ho Hne) as (o' & Hin & Hlook).
    exists o'. split; [now right|exact Hlook].
Qed.

Lemma scrubAll_refused (props : list string) :
  forall g o prop p,
    In prop props -> In o g -> o !! prop = Some p -> redefine p = None ->
    scrubAll props g = None.
Proof.
  induction props as [|h rest IH]; intros g o prop p Hprop Ho Hp Hr; [destruct Hprop|].
  cbn [scrubAll]. destruct (decide (prop = h)) as [->|Hne].
  - now rewrite (scrubProp_refused h g o p Ho Hp Hr).
  - destruct Hprop as [->|Hprop]; [congruence|].
    destruct (scrubProp h g) as [g1|] eqn:H1; [|reflexivity].
    destruct (scrubProp_frame h g g1 o prop H1 Ho Hne) as (o' & Ho' & Hlook).
    cbn. apply (IH g1 o' prop p Hprop Ho'); [now rewrite Hlook|exact Hr].
Qed.

(** X6. If some object of the chain owns a blocked name as a property
    that cannot be redefined (a non-configurable accessor, or a frozen data
    property holding something), the scrub stops with a TypeError. *)
Theorem scrub_refused (g : chain) (o : object) (prop : string) (p : property) :
  In o g -> In prop blocked -> o !! prop = Some p -> redefine p = None ->
  scrub g = None.
Proof. intros Ho Hprop Hp Hr. exact (scrubAll_refused blocked g o prop p Hprop Ho Hp Hr). Qed.

End GuestView.

(** ** Instances of the further properties *)

Section MoreInstances.
Import Js Host Worker Utils Props Relay.

Lemma constants_keep_plain_values_witness :
  wellFormed (VObj Samples.arrayGlobals) = true
  /\ ~ In "__proto__" ["fruit"; "1"]
  /\ isPlain (getPath (VObj Samples.arrayGlobals) ["fruit"; "1"]) = true
  /\ getPath (VObj (constants (extractMethods (VObj Samples.arrayGlobals) [])))
       ["fruit"; "1"] = VStr "banana".
Proof.
  assert (Hfree : ~ In "__proto__" ["fruit"; "1"])
    by (intros [H|[H|[]]]; discriminate H).
  split; [reflexivity|]. split; [exact Hfree|]. split; [reflexivity|].
  exact (constants_keep_plain_values Samples.arrayGlobals [] ["fruit"; "1"]
           eq_refl ltac:(discriminate) Hfree eq_refl ltac:(discriminate)).
Defined.

Lemma methods_names_keys_with_callables_witness :
  wellFormed (VObj MoreSamples.configGlobals) = true
  /\ protoFree (VObj [("version", VNum 1); ("name", VStr "test")]) = true
  /\ (lookupProp (methods (extractMethods (VObj MoreSamples.configGlobals) [])) "config"
      = None
      <-> callables (VObj [("version", VNum 1); ("name", VStr "test")]) = []).
Proof.
  split; [reflexivity|]. split; [reflexivity|].
  exact (methods_names_keys_with_callables MoreSamples.configGlobals [] "config"
           (VObj [("version", VNum 1); ("name", VStr "test")]) eq_refl eq_refl
           ltac:(discriminate) eq_refl).
Defined.

Lemma configGlobals_assignable :
  forall k, In k (map fst MoreSamples.configGlobals) ->
            assignable Samples.workerScope k = true.
Proof. intros k [<-|[<-|[]]]; reflexivity. Defined.

Lemma plain_values_reach_guest_witness :
  wellFormed (VObj MoreSamples.configGlobals) = true
  /\ findProperty Samples.workerScope "globalThis" = None
  /\ ~ In "globalThis" (map fst MoreSamples.configGlobals)
  /\ isReference "config" = true
  /\ forallb isIdentifierName ["version"] = true
  /\ exists g',
       setGlobals (constants (extractMethods (VObj MoreSamples.configGlobals) []))
                  (methods (extractMethods (VObj MoreSamples.configGlobals) []))
                  Samples.workerScope = Some g'
       /\ Worker.run g' "config" ["version"] = Normal (VNum 1).
Proof.
  assert (Hthis : ~ In "globalThis" (map fst MoreSamples.configGlobals))
    by (intros [H|[H|[]]]; discriminate H).
  assert (Hfree : ~ In "__proto__" ["config"; "version"])
    by (intros [H|[H|[]]]; discriminate H).
  split; [reflexivity|]. split; [reflexivity|]. split; [exact Hthis|].
  split; [reflexivity|]. split; [reflexivity|].
  exact (plain_values_reach_guest MoreSamples.configGlobals Samples.workerScope
           "config" ["version"] eq_refl ltac:(discriminate)
           configGlobals_assignable eq_refl Hthis eq_refl eq_refl Hfree
           eq_refl eq_refl ltac:(discriminate)).
Defined.

Lemma unexposed_names_untouched_witness :
  ~ In "secret" (map fst MoreSamples.configGlobals)
  /\ findProperty Samples.workerScope "secret" = None
  /\ isReference "secret" = true
  /\ Worker.run
       (default []
          (setGlobals (constants (extractMethods (VObj MoreSamples.configGlobals) []))
                      (methods (extractMethods (VObj MoreSamples.configGlobals) []))
                      Samples.workerScope))
       "secret" []
     = Throw ReferenceError.
Proof.
  assert (Hid : ~ In "secret" (map fst MoreSamples.configGlobals))
    by (intros [H|[H|[]]]; discriminate H).
  assert (Hthis : ~ In "globalThis" (map fst MoreSamples.configGlobals))
    by (intros [H|[H|[]]]; discriminate H).
  split; [exact Hid|]. split; [reflexivity|]. split; [reflexivity|].
  exact (proj2 (unexposed_names_untouched MoreSamples.configGlobals Samples.workerScope
                  _ "secret" [] eq_refl eq_refl Hthis Hid)
           eq_refl ltac:(discriminate) eq_refl eq_refl).
Defined.

Lemma blocked_names_read_undefined_witness :
  forallb blockedConfigurable Samples.workerScope = true
  /\ In "navigator" blocked
  /\ exists g',
       scrub Samples.workerScope = Some g'
       /\ Worker.run g' "navigator" [] = Normal VUndef
       /\ Worker.run g' "navigator" ["userAgent"] = Throw TypeError.
Proof.
  assert (Hin : In "navigator" blocked) by (right; left; reflexivity).
  split; [reflexivity|]. split; [exact Hin|].
  destruct (blocked_names_read_undefined Samples.workerScope "navigator" eq_refl Hin)
    as (g' & Hs & Hread).
  exists g'. split; [exact Hs|].
  change (findProperty Samples.workerScope "navigator")
    with (Some (Accessor (Some 5) None true true)) in Hread.
  destruct Hread as [H0 H1]. split; [exact H0|exact (H1 "userAgent" [])].
Defined.

Lemma scrub_refused_witness :
  In "location" blocked
  /\ redefine (Accessor (Some 6) None true false) = None
  /\ scrub MoreSamples.frozenScope = None.
Proof.
  assert (Hin : In "location" blocked) by (right; right; left; reflexivity).
  split; [exact Hin|]. split; [reflexivity|].
  exact (scrub_refused MoreSamples.frozenScope
           {[ "location" := Accessor (Some 6) None true false ]} "location"
           (Accessor (Some 6) None true false)
           (or_intror (or_introl eq_refl)) Hin eq_refl eq_refl).
Defined.

Lemma nestedGlobals_assignable :
  forall k, In k (map fst Samples.nestedGlobals) ->
            assignable Samples.workerScope k = true.
Proof. intros k [<-|[<-|[<-|[]]]]; reflexivity. Defined.

Lemma functions_reach_guest_witness :
  wellFormed (VObj Samples.nestedGlobals) = true
  /\ findProperty Samples.workerScope "globalThis" = None
  /\ ~ In "globalThis" (map fst Samples.nestedGlobals)
  /\ isReference "math" = true
  /\ forallb isIdentifierName ["multiply"] = true
  /\ getPath (VObj Samples.nestedGlobals) ["math"; "multiply"] = VFun 11
  /\ exists g' i,
       setGlobals (constants (extractMethods (VObj Samples.nestedGlobals) []))
                  (methods (extractMethods (VObj Samples.nestedGlobals) []))
                  Samples.workerScope = Some g'
       /\ foldl member (resolve g' "math") ["multiply"] = Normal (VProxy (Z.of_nat i))
       /\ onMethod (methodsById (extractMethods (VObj Samples.nestedGlobals) []))
            (VNum (Z.of_nat i)) [VNum 4; VNum 5]
          = Invoke 11 [VNum 4; VNum 5].
Proof.
  assert (Hthis : ~ In "globalThis" (map fst Samples.nestedGlobals))
    by (intros [H|[H|[H|[]]]]; discriminate H).
  assert (Hfree : ~ In "__proto__" ["math"; "multiply"])
    by (intros [H|[H|[]]]; discriminate H).
  split; [reflexivity|]. split; [reflexivity|]. split; [exact Hthis|].
  split; [reflexivity|]. split; [reflexivity|]. split; [reflexivity|].
  destruct (functions_reach_guest Samples.nestedGlobals Samples.workerScope
              "math" ["multiply"] 11 [VNum 4; VNum 5] eq_refl ltac:(discriminate)
              nestedGlobals_assignable eq_refl Hthis eq_refl eq_refl Hfree eq_refl)
    as (g' & i & Hs & Hp & _ & Hon).
  exists g', i. split; [exact Hs|]. split; [exact Hp|exact Hon].
Defined.

Lemma relay_init_without_port_witness :
  isInit (typeOf (initMessage None "code")) = true
  /\ steps initial [WindowMessage (initMessage None "code") [];
                    WindowMessage (initMessage None "code") [7];
                    PortMessage (VNum 1)]
     = (State false false false, [NewWorker (VStr "code") (VStr "slopjail")]).
Proof.
  split; [reflexivity|].
  exact (relay_init_without_port (initMessage None "code")
           [WindowMessage (initMessage None "code") [7]; PortMessage (VNum 1)] eq_refl).
Defined.

Lemma relay_idle_before_init_witness :
  steps initial [PortMessage (VNum 1); WindowMessage (VStr "hello") [3];
                 WindowMessage VNull []; WorkerMessage (VNum 2)]
  = (initial, []).
Proof.
  exact (relay_idle_before_init
           [PortMessage (VNum 1); WindowMessage (VStr "hello") [3];
            WindowMessage VNull []; WorkerMessage (VNum 2)] eq_refl).
Defined.

Lemma safeIframeSource_unchanged_witness :
  contains "</script" "const x = 1" = false
  /\ replaceAll "</script" "<\/script" "const x = 1" = "const x = 1".
Proof.
  split; [reflexivity|].
  exact (safeIframeSource_unchanged "const x = 1" eq_refl).
Defined.

Lemma escapeHtml_injective_witness :
  escapeHtml "a<b" = escapeHtml "a<b" /\ "a<b" = "a<b".
Proof.
  split; [reflexivity|]. exact (escapeHtml_injective "a<b" "a<b" eq_refl).
Defined.

Lemma escapeHtml_unchanged_iff_witness :
  (forall c, occurs c "ab" -> ~ In c (amp :: raw))
  /\ escapeHtml "ab" = "ab".
Proof.
  assert (H : forall c, occurs c "ab" -> ~ In c (amp :: raw)).
  { intros c [<-|[<-|[]]] Hin;
      repeat (destruct Hin as [Hin|Hin]; [discriminate Hin|]); exact Hin. }
  split; [exact H|]. exact (proj2 (escapeHtml_unchanged_iff "ab") H).
Defined.

End MoreInstances.
